(** * ECDSA keys of the Flow Go SDK (crypto/internal/crypto/ecdsa.go)

    A shallow embedding of the ECDSA part of the package [crypto]:
    deterministic key generation from a seed, the raw encodings of private
    and public keys, and the entry points [Sign] and [Verify].

    Conventions of the embedding.
    - A Go [[]byte] is a [list byte].  Slicing and [copy] are partial in Go
      (an index out of range panics); they return an [outcome].
    - A Go [int] is a [Z] wrapped to 64 bits after every arithmetic operation
      (module [int]).
    - A [*big.Int] is a [Z] (module [big]).
    - A Go result [(T, error)] is a pair of options: [None] is [nil].
    - An interface ([elliptic.Curve], [hash.Hasher]) is a record of its
      methods.  The curve objects are singletons compared by address; the
      record carries that address.
    - The Go standard library (math/big, crypto/elliptic, crypto/ecdsa) is not
      part of the repository.  What the package calls from it is modelled in
      the modules [big], [elliptic] and [goecdsa] from the library's
      documented behaviour; [goecdsa.Sign], which draws randomness, stays a
      parameter. *)

From Stdlib Require Import ZArith List Bool Lia String Zcong DecimalString.
From Stdlib.Strings Require Import Byte.
Import ListNotations.
Local Open Scope Z_scope.

(* ================================================================= *)
(** ** Results of Go calls: a value or a run-time panic *)

Inductive outcome (A : Type) : Type :=
| Ret (a : A)
| Panic (msg : string).
Arguments Ret {A} a.
Arguments Panic {A} msg.

Definition bind {A B : Type} (m : outcome A) (k : A -> outcome B) : outcome B :=
  match m with
  | Ret a => k a
  | Panic msg => Panic msg
  end.

Notation "x <- m ;; k" := (bind m (fun x => k))
  (at level 61, m at next level, right associativity).

(** Go's [error] values of this file are built by [errors.New] and
    [fmt.Errorf]; an error is identified by its message. *)
Definition error := string.

Module errors.
Definition New (msg : string) : error := msg.
End errors.

(* ================================================================= *)
(** ** Go's [int] (64 bits, two's complement) *)

Module int.
Definition wrap (z : Z) : Z := (z + 2 ^ 63) mod 2 ^ 64 - 2 ^ 63.
Definition add (a b : Z) : Z := wrap (a + b).
Definition sub (a b : Z) : Z := wrap (a - b).
Definition mul (a b : Z) : Z := wrap (a * b).
(** [a >> k] on a signed int is an arithmetic shift. *)
Definition shr (a k : Z) : Z := Z.shiftr a k.
(** [%d] of [fmt]: the decimal digits, with a sign for negative values. *)
Definition format (z : Z) : string := NilZero.string_of_int (Z.to_int z).
End int.

Definition len {A : Type} (s : list A) : Z := Z.of_nat (List.length s).

(* ================================================================= *)
(** ** Byte slices *)

Module slice.
(** [make([]byte, n)]: [n] zero bytes. *)
Definition make (n : Z) : outcome (list byte) :=
  if n <? 0 then Panic "makeslice: len out of range"
  else Ret (repeat x00 (Z.to_nat n)).

(** [s[:hi]].  Go checks [hi] against the capacity of [s]; the slices
    handled here are taken with capacity equal to length.  Everywhere this
    file uses [s[:hi]] it then evaluates [s[hi:]], which is checked against
    the length, so a longer capacity changes no result. *)
Definition to {A : Type} (s : list A) (hi : Z) : outcome (list A) :=
  if (hi <? 0) || (len s <? hi) then Panic "slice bounds out of range"
  else Ret (firstn (Z.to_nat hi) s).

(** [s[lo:]]. *)
Definition from {A : Type} (s : list A) (lo : Z) : outcome (list A) :=
  if (lo <? 0) || (len s <? lo) then Panic "slice bounds out of range"
  else Ret (skipn (Z.to_nat lo) s).

(** [copy(dst[lo:], src)], seen from [dst]: the window [dst[lo:]] shares
    its storage with [dst], and [copy] writes
    [min(len(dst[lo:]), len(src))] elements at its start. *)
Definition copy_from {A : Type} (dst : list A) (lo : Z) (src : list A)
  : outcome (list A) :=
  window <- from dst lo ;;
  let n := Nat.min (List.length window) (List.length src) in
  Ret (firstn (Z.to_nat lo) dst ++ firstn n src ++ skipn n window).
End slice.

(* ================================================================= *)
(** ** math/big *)

Module big.
Definition byte_of_Z (z : Z) : byte :=
  match Byte.of_N (Z.to_N (z mod 256)) with
  | Some b => b
  | None => x00
  end.

Definition Z_of_byte (b : byte) : Z := Z.of_N (Byte.to_N b).

(** [SetBytes]: the buffer read as a big-endian unsigned integer. *)
Definition SetBytes (buf : list byte) : Z :=
  fold_left (fun acc b => acc * 256 + Z_of_byte b) buf 0.

(** [BitLen]: the length of the absolute value in bits; 0 for 0. *)
Definition BitLen (x : Z) : Z :=
  if Z.abs x =? 0 then 0 else Z.log2 (Z.abs x) + 1.

(** The [n] low-order bytes of [x], most significant first. *)
Fixpoint be_bytes (n : nat) (x : Z) : list byte :=
  match n with
  | O => []
  | S n' => be_bytes n' (x / 256) ++ [byte_of_Z x]
  end.

(** [Bytes]: the absolute value as a big-endian byte slice without
    leading zero bytes (empty for 0). *)
Definition Bytes (x : Z) : list byte :=
  be_bytes (Z.to_nat ((BitLen x + 7) / 8)) (Z.abs x).

Definition Sign (x : Z) : Z := Z.sgn x.

Definition Cmp (x y : Z) : Z :=
  match x ?= y with
  | Lt => -1
  | Eq => 0
  | Gt => 1
  end.

(** [z.Mod(x, m)]: Euclidean modulus; panics when [m] is 0. *)
Definition Mod (x m : Z) : outcome Z :=
  if m =? 0 then Panic "division by zero" else Ret (x mod Z.abs m).

(** [z.ModInverse(g, n)]: [nil] when [g] and [n] are not coprime. *)
Definition ModInverse (g n : Z) : option Z :=
  if Z.gcd g n =? 1 then Some (Z.invmod g (Z.abs n)) else None.

Definition Rsh (x n : Z) : Z := Z.shiftr x n.
End big.

(* ================================================================= *)
(** ** crypto/elliptic *)

Module elliptic.
(** [CurveParams]: the field prime [P], the order [N] of the base point,
    the constant [B] of the curve equation, the base point and the size of
    the field in bits. *)
Record CurveParams : Type := {
  P : Z;
  N : Z;
  B : Z;
  Gx : Z;
  Gy : Z;
  BitSize : Z
}.

(** The interface [Curve].  [addr] is the address of the object behind the
    interface value: Go's [==] on two [Curve] values that hold pointers
    compares these addresses. *)
Record Curve : Type := {
  addr : positive;
  Params : CurveParams;
  IsOnCurve : Z -> Z -> bool;
  Add : Z -> Z -> Z -> Z -> Z * Z;
  Double : Z -> Z -> Z * Z;
  ScalarMult : Z -> Z -> list byte -> Z * Z;
  ScalarBaseMult : list byte -> Z * Z
}.

Definition same (c1 c2 : Curve) : bool := Pos.eqb (addr c1) (addr c2).

(** Affine arithmetic of the curve [y^2 = x^3 + a x + B] over the integers
    modulo [P]; as in the library, [(0, 0)] stands for the point at
    infinity. *)
Section Affine.
Variable params : CurveParams.
Variable a : Z.

Let p := P params.

Definition infinity (x y : Z) : bool := (x =? 0) && (y =? 0).

Definition affineIsOnCurve (x y : Z) : bool :=
  (y * y) mod p =? (x * x * x + a * x + B params) mod p.

Definition affineDouble (x y : Z) : Z * Z :=
  if infinity x y || ((2 * y) mod p =? 0) then (0, 0)
  else
    let l := ((3 * x * x + a) * Z.invmod (2 * y) p) mod p in
    let x3 := (l * l - 2 * x) mod p in
    (x3, (l * (x - x3) - y) mod p).

Definition affineAdd (x1 y1 x2 y2 : Z) : Z * Z :=
  if infinity x1 y1 then (x2, y2)
  else if infinity x2 y2 then (x1, y1)
  else if (x1 - x2) mod p =? 0 then
    if (y1 - y2) mod p =? 0 then affineDouble x1 y1 else (0, 0)
  else
    let l := ((y2 - y1) * Z.invmod (x2 - x1) p) mod p in
    let x3 := (l * l - x1 - x2) mod p in
    (x3, (l * (x1 - x3) - y1) mod p).

(** [k] times the point [(x, y)], by doubling and adding along the bits
    of [k]. *)
Fixpoint affineMul (k : positive) (x y : Z) : Z * Z :=
  match k with
  | xH => (x, y)
  | xO k' => let '(x2, y2) := affineMul k' x y in affineDouble x2 y2
  | xI k' =>
      let '(x2, y2) := affineMul k' x y in
      let '(x3, y3) := affineDouble x2 y2 in
      affineAdd x3 y3 x y
  end.

(** [ScalarMult] returns [k * (x, y)] where [k] is a number in big-endian
    form; the coordinates returned are reduced modulo [P]. *)
Definition affineScalarMult (x y : Z) (k : list byte) : Z * Z :=
  match big.SetBytes k with
  | Zpos n => let '(x', y') := affineMul n x y in (x' mod p, y' mod p)
  | _ => (0, 0)
  end.

Definition affineCurve (address : positive) : Curve := {|
  addr := address;
  Params := params;
  IsOnCurve := affineIsOnCurve;
  Add := affineAdd;
  Double := affineDouble;
  ScalarMult := affineScalarMult;
  ScalarBaseMult := affineScalarMult (Gx params) (Gy params)
|}.
End Affine.

(** NIST P-256 (FIPS 186-4, D.1.2.3); its equation has [a = -3]. *)
Definition p256Params : CurveParams := {|
  P := 0xffffffff00000001000000000000000000000000ffffffffffffffffffffffff;
  N := 0xffffffff00000000ffffffffffffffffbce6faada7179e84f3b9cac2fc632551;
  B := 0x5ac635d8aa3a93e7b3ebbd55769886bc651d06b0cc53b0f63bce3c3e27d2604b;
  Gx := 0x6b17d1f2e12c4247f8bce6e563a440f277037d812deb33a0f4a13945d898c296;
  Gy := 0x4fe342e2fe1a7f9b8ee7eb4a7c0f9e162bce33576b315ececbb6406837bf51f5;
  BitSize := 256
|}.

Definition P256 : Curve := affineCurve p256Params (-3) 1%positive.
End elliptic.

(** ** github.com/btcsuite/btcd/btcec *)

Module btcec.
(** secp256k1 (SEC 2, 2.4.1); its equation has [a = 0] and [b = 7]. *)
Definition secp256k1Params : elliptic.CurveParams := {|
  elliptic.P := 0xfffffffffffffffffffffffffffffffffffffffffffffffffffffffefffffc2f;
  elliptic.N := 0xfffffffffffffffffffffffffffffffebaaedce6af48a03bbfd25e8cd0364141;
  elliptic.B := 7;
  elliptic.Gx := 0x79be667ef9dcbbac55a06295ce870b07029bfcdb2dce28d959f2815b16f81798;
  elliptic.Gy := 0x483ada7726a3c4655da4fbfc0e1108a8fd17b448a68554199c47d08ffb10d4b8;
  elliptic.BitSize := 256
|}.

Definition S256 : elliptic.Curve :=
  elliptic.affineCurve secp256k1Params 0 2%positive.
End btcec.

(* ================================================================= *)
(** ** crypto/ecdsa *)

Module goecdsa.
Record PublicKey : Type := {
  Curve : elliptic.Curve;
  X : Z;
  Y : Z
}.

(** [PrivateKey] embeds its [PublicKey]. *)
Record PrivateKey : Type := {
  Public : PublicKey;
  D : Z
}.

(** [hashToInt]: the leading bytes of the digest, at most as many bits as
    the order has, as an integer. *)
Definition hashToInt (hash : list byte) (c : elliptic.Curve) : outcome Z :=
  let orderBits := big.BitLen (elliptic.N (elliptic.Params c)) in
  let orderBytes := Z.quot (int.add orderBits 7) 8 in
  hash' <- (if len hash >? orderBytes then slice.to hash orderBytes
            else Ret hash) ;;
  let ret := big.SetBytes hash' in
  let excess := int.sub (int.mul (len hash') 8) orderBits in
  Ret (if excess >? 0 then big.Rsh ret excess else ret).

(** [Verify]: the signature [(r, s)] of [hash] is checked against [pub].
    A component outside [[1, N-1]] makes the signature invalid. *)
Definition Verify (pub : PublicKey) (hash : list byte) (r s : Z)
  : outcome bool :=
  let c := Curve pub in
  let N := elliptic.N (elliptic.Params c) in
  if (big.Sign r <=? 0) || (big.Sign s <=? 0) then Ret false
  else if (big.Cmp r N >=? 0) || (big.Cmp s N >=? 0) then Ret false
  else
    e <- hashToInt hash c ;;
    match big.ModInverse s N with
    | None => Panic "invalid memory address or nil pointer dereference"
    | Some w =>
        u1 <- big.Mod (e * w) N ;;
        u2 <- big.Mod (r * w) N ;;
        let '(x1, y1) := elliptic.ScalarBaseMult c (big.Bytes u1) in
        let '(x2, y2) := elliptic.ScalarMult c (X pub) (Y pub) (big.Bytes u2) in
        let '(x, y) := elliptic.Add c x1 y1 x2 y2 in
        if (big.Sign x =? 0) && (big.Sign y =? 0) then Ret false
        else
          x' <- big.Mod x N ;;
          Ret (big.Cmp x' r =? 0)
    end.
End goecdsa.

(* ================================================================= *)
(** ** Declarations of the package that live outside ecdsa.go *)

Module hash.
Definition Hash := list byte.

(** Modelled from the spec: the interface [hash.Hasher] is declared in the
    package crypto/internal/crypto/hash; the part used here is "compute
    digest of bytes -> fixed-length digest". *)
Record Hasher : Type := {
  ComputeHash : list byte -> Hash
}.
End hash.

(** Modelled from the spec: the identifiers of the signing algorithms are
    declared in another file of the package; ecdsa.go names these two, the
    "NIST-style 256-bit prime curve" and the "SECG-style 256-bit Koblitz
    curve". *)
Inductive SigningAlgorithm : Type :=
| ECDSAP256
| ECDSASecp256k1.

(** Modelled from the spec: [securityBits] is declared in another file of the
    package; generation asks for "16 bytes = 128 bits of extra entropy". *)
Definition securityBits : Z := 128.

Definition Signature := list byte.

(* ================================================================= *)
(** ** ecdsa.go *)

Record ecdsaAlgo : Type := {
  curve : elliptic.Curve;
  algo : SigningAlgorithm
}.

(** [newECDSAP256] and [newECDSASecp256k1] return the one instance that a
    [sync.Once] builds at the first call. *)
Definition newECDSAP256 : ecdsaAlgo := {|
  curve := elliptic.P256;
  algo := ECDSAP256
|}.

Definition newECDSASecp256k1 : ecdsaAlgo := {|
  curve := btcec.S256;
  algo := ECDSASecp256k1
|}.

Definition bitsToBytes (bits : Z) : Z := int.shr (int.add bits 7) 3.

(** The two key types.  In Go both structs name their first field [alg]; the
    projections carry the receiver's name to keep them apart. *)
Record PrKeyECDSA : Type := {
  sk_alg : ecdsaAlgo;
  goPrKey : goecdsa.PrivateKey
}.

Record PubKeyECDSA : Type := {
  pk_alg : ecdsaAlgo;
  goPubKey : goecdsa.PublicKey
}.

(** The interfaces [PrivateKey] and [PublicKey]: a value holds a key of this
    file or a key of another implementation. *)
Inductive PrivateKey : Type :=
| PrivateECDSA (sk : PrKeyECDSA)
| PrivateOther.

Inductive PublicKey : Type :=
| PublicECDSA (pk : PubKeyECDSA)
| PublicOther.

(** [Nlen] and [Plen] are the local variables of that name in the source:
    the byte length of the order and of the field prime. *)
Definition Nlen (a : ecdsaAlgo) : Z :=
  bitsToBytes (big.BitLen (elliptic.N (elliptic.Params (curve a)))).

Definition Plen (a : ecdsaAlgo) : Z :=
  bitsToBytes (big.BitLen (elliptic.P (elliptic.Params (curve a)))).

Module PubKeyECDSA.
(** [verifyHash] implements ECDSA signature verification. *)
Definition verifyHash (pk : PubKeyECDSA) (sig : Signature) (h : hash.Hash)
  : outcome (bool * option error) :=
  let Nlen := Nlen (pk_alg pk) in
  rBytes <- slice.to sig Nlen ;;
  let r := big.SetBytes rBytes in
  sBytes <- slice.from sig Nlen ;;
  let s := big.SetBytes sBytes in
  b <- goecdsa.Verify (goPubKey pk) h r s ;;
  Ret (b, None).

Definition Verify (pk : PubKeyECDSA) (sig : Signature) (data : list byte)
           (alg : option hash.Hasher) : outcome (bool * option error) :=
  match alg with
  | None => Ret (false, Some (errors.New "Verify requires a Hasher"))
  | Some alg =>
      let h := hash.ComputeHash alg data in
      verifyHash pk sig h
  end.

Definition Algorithm (pk : PubKeyECDSA) : SigningAlgorithm :=
  algo (pk_alg pk).

(** [pk.goPubKey.Params()] is the promoted method of the embedded curve. *)
Definition Size (pk : PubKeyECDSA) : Z :=
  int.mul 2 (bitsToBytes (big.BitLen
    (elliptic.P (elliptic.Params (goecdsa.Curve (goPubKey pk)))))).

Definition rawEncode (pk : PubKeyECDSA) : outcome (list byte) :=
  let xBytes := big.Bytes (goecdsa.X (goPubKey pk)) in
  let yBytes := big.Bytes (goecdsa.Y (goPubKey pk)) in
  let Plen := Plen (pk_alg pk) in
  pkEncoded <- slice.make (int.mul 2 Plen) ;;
  pkEncoded <- slice.copy_from pkEncoded (int.sub Plen (len xBytes)) xBytes ;;
  pkEncoded <- slice.copy_from pkEncoded
                 (int.sub (int.mul 2 Plen) (len yBytes)) yBytes ;;
  Ret pkEncoded.

Definition Encode (pk : PubKeyECDSA) : outcome (list byte) := rawEncode pk.

Definition Equals (pk : PubKeyECDSA) (other : PublicKey) : bool :=
  match other with
  | PublicOther => false
  | PublicECDSA otherECDSA =>
      if negb (elliptic.same (curve (pk_alg pk)) (curve (pk_alg otherECDSA)))
      then false
      else
        (big.Cmp (goecdsa.X (goPubKey pk)) (goecdsa.X (goPubKey otherECDSA)) =? 0)
        && (big.Cmp (goecdsa.Y (goPubKey pk)) (goecdsa.Y (goPubKey otherECDSA)) =? 0)
  end.
End PubKeyECDSA.

Module PrKeyECDSA.
Section Signing.
(** [crypto/ecdsa.Sign] reads [crypto/rand.Reader]; both are taken as
    given: a state [Reader] of the random source, and a function that
    returns the pair [(r, s)] or an error together with the next state. *)
Context {Reader : Type}.
Variable goecdsa_Sign :
  Reader -> goecdsa.PrivateKey -> list byte -> (Z * Z + error) * Reader.

Definition signHash (rand : Reader) (sk : PrKeyECDSA) (h : hash.Hash)
  : outcome (option Signature * option error) * Reader :=
  let '(res, rand') := goecdsa_Sign rand (goPrKey sk) h in
  (match res with
   | inr err => Ret (None, Some ("ECDSA Sign has failed: " ++ err)%string)
   | inl (r, s) =>
       let rBytes := big.Bytes r in
       let sBytes := big.Bytes s in
       let Nlen := Nlen (sk_alg sk) in
       signature <- slice.make (int.mul 2 Nlen) ;;
       signature <- slice.copy_from signature
                      (int.sub Nlen (len rBytes)) rBytes ;;
       signature <- slice.copy_from signature
                      (int.sub (int.mul 2 Nlen) (len sBytes)) sBytes ;;
       Ret (Some signature, None)
   end, rand').

Definition Sign (rand : Reader) (sk : PrKeyECDSA) (data : list byte)
           (alg : option hash.Hasher)
  : outcome (option Signature * option error) * Reader :=
  match alg with
  | None => (Ret (None, Some (errors.New "Sign requires a Hasher")), rand)
  | Some alg =>
      let h := hash.ComputeHash alg data in
      signHash rand sk h
  end.
End Signing.

Definition Algorithm (sk : PrKeyECDSA) : SigningAlgorithm :=
  algo (sk_alg sk).

Definition Size (sk : PrKeyECDSA) : Z := Nlen (sk_alg sk).

Definition PublicKey (sk : PrKeyECDSA) : PubKeyECDSA := {|
  pk_alg := sk_alg sk;
  goPubKey := goecdsa.Public (goPrKey sk)
|}.

Definition rawEncode (sk : PrKeyECDSA) : outcome (list byte) :=
  let skBytes := big.Bytes (goecdsa.D (goPrKey sk)) in
  let Nlen := Nlen (sk_alg sk) in
  skEncoded <- slice.make Nlen ;;
  skEncoded <- slice.copy_from skEncoded (int.sub Nlen (len skBytes)) skBytes ;;
  Ret skEncoded.

Definition Encode (sk : PrKeyECDSA) : outcome (list byte) := rawEncode sk.

Definition Equals (sk : PrKeyECDSA) (other : PrivateKey) : bool :=
  match other with
  | PrivateOther => false
  | PrivateECDSA otherECDSA =>
      if negb (elliptic.same (curve (sk_alg sk)) (curve (sk_alg otherECDSA)))
      then false
      else big.Cmp (goecdsa.D (goPrKey sk)) (goecdsa.D (goPrKey otherECDSA)) =? 0
  end.
End PrKeyECDSA.

Definition one : Z := 1.

(** [goecdsaGenerateKey] generates a public and private key pair for the
    crypto/ecdsa library using the input seed. *)
Definition goecdsaGenerateKey (c : elliptic.Curve) (seed : list byte)
  : outcome goecdsa.PrivateKey :=
  let k := big.SetBytes seed in
  let n := elliptic.N (elliptic.Params c) - one in
  k <- big.Mod k n ;;
  let k := k + one in
  let '(x, y) := elliptic.ScalarBaseMult c (big.Bytes k) in
  Ret {| goecdsa.Public := {| goecdsa.Curve := c; goecdsa.X := x; goecdsa.Y := y |};
         goecdsa.D := k |}.

(** [generatePrivateKey] generates a private key for ECDSA deterministically
    using the input seed. *)
Definition generatePrivateKey (a : ecdsaAlgo) (seed : list byte)
  : outcome (option PrivateKey * option error) :=
  let Nlen := Nlen a in
  let minSeedLen := int.add Nlen (securityBits / 8) in
  if len seed <? minSeedLen then
    Ret (None, Some ("seed should be at least " ++ int.format minSeedLen
                       ++ " bytes")%string)
  else
    sk <- goecdsaGenerateKey (curve a) seed ;;
    Ret (Some (PrivateECDSA {| sk_alg := a; goPrKey := sk |}), None).

Definition rawDecodePrivateKey (a : ecdsaAlgo) (der : list byte)
  : outcome (option PrivateKey * option error) :=
  let Nlen := Nlen a in
  if negb (len der =? Nlen) then
    Ret (None, Some (errors.New "raw private key is not valid"))
  else
    let d := big.SetBytes der in
    let '(x, y) := elliptic.ScalarBaseMult (curve a) der in
    let priv := {| goecdsa.Public :=
                     {| goecdsa.Curve := curve a; goecdsa.X := x; goecdsa.Y := y |};
                   goecdsa.D := d |} in
    Ret (Some (PrivateECDSA {| sk_alg := a; goPrKey := priv |}), None).

Definition decodePrivateKey (a : ecdsaAlgo) (der : list byte)
  : outcome (option PrivateKey * option error) :=
  rawDecodePrivateKey a der.

Definition rawDecodePublicKey (a : ecdsaAlgo) (der : list byte)
  : outcome (option PublicKey * option error) :=
  let Plen := Plen a in
  if negb (len der =? int.mul 2 Plen) then
    Ret (None, Some (errors.New "raw public key is not valid"))
  else
    xBytes <- slice.to der Plen ;;
    let x := big.SetBytes xBytes in
    yBytes <- slice.from der Plen ;;
    let y := big.SetBytes yBytes in
    let pk := {| goecdsa.Curve := curve a; goecdsa.X := x; goecdsa.Y := y |} in
    Ret (Some (PublicECDSA {| pk_alg := a; goPubKey := pk |}), None).

Definition decodePublicKey (a : ecdsaAlgo) (der : list byte)
  : outcome (option PublicKey * option error) :=
  rawDecodePublicKey a der.

(* ================================================================= *)
(** ** Conditions on curves and keys used by the statements *)

(** The bit lengths of the order and of the field prime are far from the
    range of [int], so that the byte lengths computed from them do not wrap. *)
Definition params_fit (c : elliptic.Curve) : Prop :=
  big.BitLen (elliptic.N (elliptic.Params c)) < 2 ^ 62
  /\ big.BitLen (elliptic.P (elliptic.Params c)) < 2 ^ 62.

(** What the package relies on from an implementation of [elliptic.Curve]:
    an order above 1, [ScalarBaseMult] as the multiples of the base point
    [(Gx, Gy)], and coordinates that are field elements. *)
Record curve_ok (c : elliptic.Curve) : Prop := {
  ok_fit : params_fit c;
  ok_order : 1 < elliptic.N (elliptic.Params c);
  ok_base : forall k,
    elliptic.ScalarBaseMult c k
    = elliptic.ScalarMult c (elliptic.Gx (elliptic.Params c))
                            (elliptic.Gy (elliptic.Params c)) k;
  ok_coords : forall k,
    0 <= fst (elliptic.ScalarBaseMult c k) < elliptic.P (elliptic.Params c)
    /\ 0 <= snd (elliptic.ScalarBaseMult c k) < elliptic.P (elliptic.Params c)
}.

(** The keys that the package constructs for the algorithm [a]: private keys
    come out of [generatePrivateKey] and [decodePrivateKey], public keys out
    of [decodePublicKey] and of [PublicKey] applied to such a private key. *)
Inductive constructed_private (a : ecdsaAlgo) : PrKeyECDSA -> Prop :=
| generated (seed : list byte) (sk : PrKeyECDSA) :
    generatePrivateKey a seed = Ret (Some (PrivateECDSA sk), None) ->
    constructed_private a sk
| decoded_private (der : list byte) (sk : PrKeyECDSA) :
    decodePrivateKey a der = Ret (Some (PrivateECDSA sk), None) ->
    constructed_private a sk.

Inductive constructed_public (a : ecdsaAlgo) : PubKeyECDSA -> Prop :=
| decoded_public (der : list byte) (pk : PubKeyECDSA) :
    decodePublicKey a der = Ret (Some (PublicECDSA pk), None) ->
    constructed_public a pk
| derived_public (sk : PrKeyECDSA) :
    constructed_private a sk ->
    constructed_public a (PrKeyECDSA.PublicKey sk).

(** The scalar that [generatePrivateKey] derives from a seed on a curve of
    order [n]. *)
Definition seed_scalar (n : Z) (seed : list byte) : Z :=
  big.SetBytes seed mod (n - 1) + 1.

(** Inputs on which the statements below are instantiated. *)
Definition zeroSeed : list byte := repeat x00 48.

Definition onesSeed : list byte := repeat x01 48.

Definition prefixHasher : hash.Hasher :=
  {| hash.ComputeHash := fun data => firstn 32 (data ++ repeat x00 32) |}.

Definition basePointKey : PubKeyECDSA := {|
  pk_alg := newECDSAP256;
  goPubKey := {| goecdsa.Curve := elliptic.P256;
                 goecdsa.X := elliptic.Gx elliptic.p256Params;
                 goecdsa.Y := elliptic.Gy elliptic.p256Params |}
|}.

(** [ScalarBaseMult] reads its argument as a number: two byte strings with
    the same big-endian value give the same point. *)
Definition base_mult_by_value (c : elliptic.Curve) : Prop :=
  forall k k' : list byte,
    big.SetBytes k = big.SetBytes k' ->
    elliptic.ScalarBaseMult c k = elliptic.ScalarBaseMult c k'.

(** A stand-in for [crypto/ecdsa.Sign] on which statements about [Sign] are
    instantiated: ECDSA with the nonce fixed to 1, so that [r] is the
    abscissa of the base point; the state of the random source counts the
    calls. *)
Definition nonceOneSign (rand : nat) (priv : goecdsa.PrivateKey)
           (hash : list byte) : (Z * Z + error) * nat :=
  let c := goecdsa.Curve (goecdsa.Public priv) in
  let n := elliptic.N (elliptic.Params c) in
  let r := elliptic.Gx (elliptic.Params c) mod n in
  match goecdsa.hashToInt hash c with
  | Ret e => (inl (r, (e + goecdsa.D priv * r) mod n), S rand)
  | Panic msg => (inr msg, S rand)
  end.

(** A stand-in that always fails, as when the random source cannot be
    read. *)
Definition failingSign (rand : nat) (priv : goecdsa.PrivateKey)
           (hash : list byte) : (Z * Z + error) * nat :=
  (inr "unexpected EOF"%string, rand).

(** The private key of scalar 1 on P-256 (its public point is the base
    point). *)
Definition scalarOneKey : PrKeyECDSA := {|
  sk_alg := newECDSAP256;
  goPrKey := {| goecdsa.Public := goPubKey basePointKey; goecdsa.D := 1 |}
|}.


(* ================================================================= *)
(** ** fmt: the verb [%#x] on a byte slice *)

Module fmt.
Definition ldigits : string := "0123456789abcdef".

Definition digit (n : Z) : Ascii.ascii :=
match String.get (Z.to_nat n) ldigits with
| Some c => c
| None => Ascii.zero
end.

(** Two lowercase hexadecimal digits per byte, the high half first. *)
Fixpoint hex (b : list byte) : string :=
match b with
| [] => EmptyString
| c :: rest =>
    String (digit (Z.shiftr (big.Z_of_byte c) 4))
      (String (digit (Z.land (big.Z_of_byte c) 15)) (hex rest))
end.

(** [Sprintf("%#x", b)]: nothing for an empty slice, otherwise the digits
    after the prefix [0x]. *)
Definition Sprintf_sharp_x (b : list byte) : string :=
match b with
| [] => EmptyString
| _ => ("0x" ++ hex b)%string
end.

(** The value of a hexadecimal digit; used to read [hex] back. *)
Definition undigit (c : Ascii.ascii) : Z :=
let n := Z.of_N (Ascii.N_of_ascii c) in
if (48 <=? n) && (n <=? 57) then n - 48
else if (97 <=? n) && (n <=? 102) then n - 87
else 0.
End fmt.

(** [String] returns the hex string representation of the key. *)
Definition PrKeyECDSA_String (sk : PrKeyECDSA) : outcome string :=
  encoded <- PrKeyECDSA.Encode sk ;;
  Ret (fmt.Sprintf_sharp_x encoded).

Definition PubKeyECDSA_String (pk : PubKeyECDSA) : outcome string :=
  encoded <- PubKeyECDSA.Encode pk ;;
  Ret (fmt.Sprintf_sharp_x encoded).

(* ================================================================= *)
(** ** templates/accounts.go *)

Module templates.
Definition createAccountTemplate : string := "
transaction(publicKeys: [[UInt8]], code: [UInt8]) {
  prepare(signer: AuthAccount) {
	let acct = AuthAccount(payer: signer)

	for key in publicKeys {
	  acct.addPublicKey(key)
	}
	
	if code.length > 0 {
	  acct.setCode(code)
	}
  }
}
".

Definition createAccountWithoutCodeTemplate : string := "
transaction(publicKeys: [[UInt8]], code: [UInt8]) {
  prepare(signer: AuthAccount) {
	let acct = AuthAccount(payer: signer)

	for key in publicKeys {
		acct.addPublicKey(key)
	}
  }
}
".

Definition updateAccountCodeTemplate : string := "
transaction(code: [UInt8]) {
  prepare(signer: AuthAccount) {
	signer.setCode(code)
  }
}
".

Definition addAccountKeyTemplate : string := "
transaction(publicKey: [UInt8]) {
  prepare(signer: AuthAccount) {
	signer.addPublicKey(publicKey)
  }
}
".

Definition removeAccountKeyTemplate : string := "
transaction(keyIndex: Int) {
  prepare(signer: AuthAccount) {
    signer.removePublicKey(keyIndex)
  }	
}
".

Definition replaceAccountKeysTemplate : string := "
transaction(publicKeys: [[UInt8]], keyIDs: [Int]) {
  prepare(signer: AuthAccount) {
	for id in keyIDs {
		signer.removePublicKey(id)
	}

	for key in publicKeys {
		signer.addPublicKey(key)
	}
  }
}
".

Section Cadence.
(** The packages cadence, cadence/encoding/json and flow are not under src;
    what the templates call from them is taken as given: the values of
    cadence with their constructors, [jsoncdc.MustEncode] (which panics when
    the encoding fails), and the builder methods of [flow.Transaction].  A
    slot of a fresh [[]cadence.Value] holds nil, here [None]. *)
Variable Value : Type.
Variable NewUInt8 : byte -> Value.
Variable NewInt : Z -> Value.
Variable NewArray : list (option Value) -> Value.
Variable MustEncode : Value -> outcome (list byte).
Variable Address : Type.
Variable AccountKey : Type.
Variable AccountKey_Encode : AccountKey -> list byte.
Variable Transaction : Type.
Variable NewTransaction : Transaction.
Variable SetScript : Transaction -> list byte -> Transaction.
Variable AddAuthorizer : Transaction -> Address -> Transaction.
Variable AddRawArgument : Transaction -> list byte -> Transaction.

(** [make([]cadence.Value, n)]. *)
Definition make_values (n : Z) : outcome (list (option Value)) :=
  if n <? 0 then Panic "makeslice: len out of range"
  else Ret (repeat None (Z.to_nat n)).

(** [values[i] = v]. *)
Definition assign (values : list (option Value)) (i : Z) (v : Value)
  : outcome (list (option Value)) :=
  if (i <? 0) || (len values <=? i) then Panic "index out of range"
  else Ret (firstn (Z.to_nat i) values ++ Some v :: skipn (Z.to_nat (i + 1)) values).

(** [for i, x := range xs { values[i] = f(x) }], from index [i] on.  The
    index of a range loop stays below the length of [xs], so its increment
    does not wrap. *)
Fixpoint range_assign {X : Type} (f : X -> outcome Value) (i : Z) (xs : list X)
         (values : list (option Value)) : outcome (list (option Value)) :=
  match xs with
  | [] => Ret values
  | x :: rest =>
      v <- f x ;;
      values <- assign values i v ;;
      range_assign f (i + 1) rest values
  end.

Definition bytesToCadenceArray (b : list byte) : outcome Value :=
  values <- make_values (len b) ;;
  values <- range_assign (fun v => Ret (NewUInt8 v)) 0 b values ;;
  Ret (NewArray values).

(** [CreateAccount] generates a transaction that creates a new account. *)
Definition CreateAccount (accountKeys : list AccountKey) (code : list byte)
           (payer : Address) : outcome Transaction :=
  publicKeys <- make_values (len accountKeys) ;;
  publicKeys <- range_assign
                  (fun accountKey => bytesToCadenceArray (AccountKey_Encode accountKey))
                  0 accountKeys publicKeys ;;
  let cadencePublicKeys := NewArray publicKeys in
  cadenceCode <- bytesToCadenceArray code ;;
  let tx := SetScript NewTransaction (list_byte_of_string createAccountTemplate) in
  let tx := AddAuthorizer tx payer in
  arg <- MustEncode cadencePublicKeys ;;
  let tx := AddRawArgument tx arg in
  arg <- MustEncode cadenceCode ;;
  Ret (AddRawArgument tx arg).

(** [CreateAccountWithoutCode] generates a transaction that creates a new
    account without code. *)
Definition CreateAccountWithoutCode (accountKeys : list AccountKey)
           (payer : Address) : outcome Transaction :=
  publicKeys <- make_values (len accountKeys) ;;
  publicKeys <- range_assign
                  (fun accountKey => bytesToCadenceArray (AccountKey_Encode accountKey))
                  0 accountKeys publicKeys ;;
  let cadencePublicKeys := NewArray publicKeys in
  cadenceCode <- bytesToCadenceArray [] ;;
  let tx := SetScript NewTransaction
              (list_byte_of_string createAccountWithoutCodeTemplate) in
  let tx := AddAuthorizer tx payer in
  arg <- MustEncode cadencePublicKeys ;;
  let tx := AddRawArgument tx arg in
  arg <- MustEncode cadenceCode ;;
  Ret (AddRawArgument tx arg).

(** [UpdateAccountCode] generates a transaction that updates the code
    deployed at an account. *)
Definition UpdateAccountCode (address : Address) (code : list byte)
  : outcome Transaction :=
  cadenceCode <- bytesToCadenceArray code ;;
  let tx := SetScript NewTransaction (list_byte_of_string updateAccountCodeTemplate) in
  arg <- MustEncode cadenceCode ;;
  Ret (AddAuthorizer (AddRawArgument tx arg) address).

(** [AddAccountKey] generates a transaction that adds a public key to an
    account. *)
Definition AddAccountKey (address : Address) (accountKey : AccountKey)
  : outcome Transaction :=
  cadencePublicKey <- bytesToCadenceArray (AccountKey_Encode accountKey) ;;
  let tx := SetScript NewTransaction (list_byte_of_string addAccountKeyTemplate) in
  arg <- MustEncode cadencePublicKey ;;
  Ret (AddAuthorizer (AddRawArgument tx arg) address).

(** [RemoveAccountKey] generates a transaction that removes a key from an
    account. *)
Definition RemoveAccountKey (address : Address) (keyIndex : Z)
  : outcome Transaction :=
  let cadenceKeyIndex := NewInt keyIndex in
  let tx := SetScript NewTransaction (list_byte_of_string removeAccountKeyTemplate) in
  arg <- MustEncode cadenceKeyIndex ;;
  Ret (AddAuthorizer (AddRawArgument tx arg) address).

(** [ReplaceAccountKeys] removes keys by ids and adds new keys. *)
Definition ReplaceAccountKeys (address : Address) (ids : list Z)
           (accountKeys : list AccountKey) : outcome Transaction :=
  publicKeys <- make_values (len accountKeys) ;;
  publicKeys <- range_assign
                  (fun accountKey => bytesToCadenceArray (AccountKey_Encode accountKey))
                  0 accountKeys publicKeys ;;
  removeIDs <- make_values (len ids) ;;
  removeIDs <- range_assign (fun id => Ret (NewInt id)) 0 ids removeIDs ;;
  let cadencePublicKeys := NewArray publicKeys in
  let cadenceIDs := NewArray removeIDs in
  let tx := SetScript NewTransaction (list_byte_of_string replaceAccountKeysTemplate) in
  arg <- MustEncode cadencePublicKeys ;;
  let tx := AddRawArgument tx arg in
  arg <- MustEncode cadenceIDs ;;
  Ret (AddAuthorizer (AddRawArgument tx arg) address).
End Cadence.
End templates.
(* ================================================================= *)
(** ** Facts about [int] *)

Lemma int_wrap_small (z : Z) :
  - 2 ^ 63 <= z < 2 ^ 63 -> int.wrap z = z.
Proof.
  intros Hz. unfold int.wrap.
  rewrite Z.mod_small by lia. lia.
Qed.

Lemma bitsToBytes_small (bits : Z) :
  0 <= bits < 2 ^ 62 -> bitsToBytes bits = (bits + 7) / 8.
Proof.
  intros Hb. unfold bitsToBytes, int.shr, int.add.
  rewrite int_wrap_small by lia.
  rewrite Z.shiftr_div_pow2 by lia. reflexivity.
Qed.

Lemma bitsToBytes_range (bits : Z) :
  0 <= bits < 2 ^ 62 -> 0 <= bitsToBytes bits < 2 ^ 60.
Proof.
  intros Hb. rewrite bitsToBytes_small by assumption.
  split.
  - apply Z.div_pos; lia.
  - apply Z.div_lt_upper_bound; lia.
Qed.

(* ================================================================= *)
(** ** Facts about [big] *)

Lemma Z_of_byte_range (b : byte) : 0 <= big.Z_of_byte b < 256.
Proof.
  unfold big.Z_of_byte. pose proof (Byte.to_N_bounded b). lia.
Qed.

Lemma Z_of_byte_of_Z (z : Z) : big.Z_of_byte (big.byte_of_Z z) = z mod 256.
Proof.
  unfold big.Z_of_byte, big.byte_of_Z.
  pose proof (Z.mod_pos_bound z 256 ltac:(lia)) as Hr.
  destruct (Byte.of_N (Z.to_N (z mod 256))) as [b|] eqn:E.
  - apply Byte.to_of_N in E. rewrite E. lia.
  - apply Byte.of_N_None_iff in E. lia.
Qed.

Lemma SetBytes_acc (buf : list byte) (acc : Z) :
  fold_left (fun acc b => acc * 256 + big.Z_of_byte b) buf acc
  = acc * 256 ^ len buf + big.SetBytes buf.
Proof.
  unfold big.SetBytes, len. revert acc.
  induction buf as [|b buf IH]; intros acc; cbn [fold_left].
  - simpl. lia.
  - rewrite (IH (acc * 256 + _)), (IH (0 * 256 + _)).
    replace (Z.of_nat (List.length (b :: buf)))
      with (1 + Z.of_nat (List.length buf)) by (simpl List.length; lia).
    rewrite Z.pow_add_r by lia. lia.
Qed.

Lemma SetBytes_app (xs ys : list byte) :
  big.SetBytes (xs ++ ys) = big.SetBytes xs * 256 ^ len ys + big.SetBytes ys.
Proof.
  unfold big.SetBytes at 1. rewrite fold_left_app.
  fold (big.SetBytes xs). apply SetBytes_acc.
Qed.

Lemma SetBytes_range (buf : list byte) :
  0 <= big.SetBytes buf < 256 ^ len buf.
Proof.
  induction buf as [|b buf IH] using rev_ind.
  - cbn. lia.
  - rewrite SetBytes_app. unfold len in *. rewrite length_app.
    simpl List.length. rewrite Nat2Z.inj_add, Z.pow_add_r by lia.
    change (big.SetBytes [b]) with (0 * 256 + big.Z_of_byte b).
    pose proof (Z_of_byte_range b). simpl Z.of_nat. lia.
Qed.

Lemma SetBytes_zeros (n : nat) (buf : list byte) :
  big.SetBytes (repeat x00 n ++ buf) = big.SetBytes buf.
Proof.
  induction n as [|n IH]; [reflexivity|].
  simpl repeat. rewrite <- app_comm_cons.
  unfold big.SetBytes in *. simpl fold_left. exact IH.
Qed.

Lemma length_be_bytes (n : nat) (x : Z) : List.length (big.be_bytes n x) = n.
Proof.
  revert x. induction n as [|n IH]; intros x; simpl; [reflexivity|].
  rewrite length_app, IH. simpl. lia.
Qed.

Lemma SetBytes_be_bytes (n : nat) (x : Z) :
  big.SetBytes (big.be_bytes n x) = x mod 256 ^ Z.of_nat n.
Proof.
  revert x. induction n as [|n IH]; intros x.
  - simpl. rewrite Z.mod_1_r. reflexivity.
  - simpl big.be_bytes. rewrite SetBytes_app, IH.
    change (big.SetBytes [big.byte_of_Z x]) with (0 * 256 + big.Z_of_byte (big.byte_of_Z x)).
    rewrite Z_of_byte_of_Z. change (len [big.byte_of_Z x]) with 1.
    rewrite Nat2Z.inj_succ, Z.pow_succ_r by lia.
    rewrite (Z.rem_mul_r x 256 (256 ^ Z.of_nat n)) by lia.
    lia.
Qed.

Lemma BitLen_nonneg (x : Z) : 0 <= big.BitLen x.
Proof.
  unfold big.BitLen. destruct (Z.abs x =? 0); [lia|].
  pose proof (Z.log2_nonneg (Z.abs x)). lia.
Qed.

Lemma BitLen_spec (x : Z) : Z.abs x < 2 ^ big.BitLen x.
Proof.
  unfold big.BitLen. destruct (Z.eqb_spec (Z.abs x) 0) as [E|E].
  - rewrite E. simpl. lia.
  - assert (0 < Z.abs x) as Hpos by lia.
    pose proof (Z.log2_spec _ Hpos) as [_ H].
    replace (Z.log2 (Z.abs x) + 1) with (Z.succ (Z.log2 (Z.abs x))) by lia.
    exact H.
Qed.

Lemma BitLen_mono (x y : Z) :
  Z.abs x <= Z.abs y -> big.BitLen x <= big.BitLen y.
Proof.
  intros Hxy. unfold big.BitLen.
  destruct (Z.eqb_spec (Z.abs x) 0) as [Ex|Ex];
    destruct (Z.eqb_spec (Z.abs y) 0) as [Ey|Ey]; try lia.
  - pose proof (Z.log2_nonneg (Z.abs y)). lia.
  - pose proof (Z.log2_le_mono _ _ Hxy). lia.
Qed.

Lemma pow256_bytes (n : Z) : 0 <= n -> 256 ^ n = 2 ^ (8 * n).
Proof.
  intros Hn. rewrite Z.pow_mul_r by lia. reflexivity.
Qed.

Lemma len_Bytes (x : Z) : len (big.Bytes x) = (big.BitLen x + 7) / 8.
Proof.
  unfold big.Bytes, len. rewrite length_be_bytes.
  pose proof (BitLen_nonneg x).
  rewrite Z2Nat.id; [reflexivity|]. apply Z.div_pos; lia.
Qed.

Lemma SetBytes_Bytes (x : Z) : big.SetBytes (big.Bytes x) = Z.abs x.
Proof.
  unfold big.Bytes. rewrite SetBytes_be_bytes.
  pose proof (BitLen_nonneg x) as Hn. pose proof (BitLen_spec x) as Hx.
  assert (0 <= (big.BitLen x + 7) / 8) as Hq by (apply Z.div_pos; lia).
  rewrite Z2Nat.id by assumption.
  apply Z.mod_small. split; [lia|].
  rewrite pow256_bytes by assumption.
  eapply Z.lt_le_trans; [exact Hx|].
  apply Z.pow_le_mono_r; [lia|].
  pose proof (Z.mul_div_le (big.BitLen x + 7) 8 ltac:(lia)).
  pose proof (Z.mod_pos_bound (big.BitLen x + 7) 8 ltac:(lia)).
  pose proof (Z.div_mod (big.BitLen x + 7) 8 ltac:(lia)).
  lia.
Qed.

Lemma len_Bytes_le (x y : Z) :
  Z.abs x <= Z.abs y -> len (big.Bytes x) <= (big.BitLen y + 7) / 8.
Proof.
  intros Hxy. rewrite len_Bytes.
  apply Z.div_le_mono; [lia|].
  pose proof (BitLen_mono x y Hxy). lia.
Qed.

Lemma len_Bytes_SetBytes (buf : list byte) :
  len (big.Bytes (big.SetBytes buf)) <= len buf.
Proof.
  rewrite len_Bytes.
  pose proof (SetBytes_range buf) as [H0 H1].
  assert (0 <= len buf) as Hl by (unfold len; lia).
  rewrite pow256_bytes in H1 by assumption.
  assert (big.BitLen (big.SetBytes buf) <= 8 * len buf) as Hb.
  { unfold big.BitLen. rewrite Z.abs_eq by assumption.
    destruct (Z.eqb_spec (big.SetBytes buf) 0) as [E|E]; [lia|].
    assert (0 < big.SetBytes buf) as Hpos by lia.
    pose proof (Z.log2_lt_pow2 _ (8 * len buf) Hpos) as [Hlog _].
    specialize (Hlog H1). lia. }
  enough ((big.BitLen (big.SetBytes buf) + 7) / 8 < len buf + 1) by lia.
  apply Z.div_lt_upper_bound; lia.
Qed.

(* ================================================================= *)
(** ** Facts about slices *)

Lemma len_nonneg {A : Type} (s : list A) : 0 <= len s.
Proof. unfold len. lia. Qed.

Lemma len_app {A : Type} (s t : list A) : len (s ++ t) = len s + len t.
Proof. unfold len. rewrite length_app. lia. Qed.

Lemma len_repeat {A : Type} (x : A) (n : nat) : len (repeat x n) = Z.of_nat n.
Proof. unfold len. rewrite repeat_length. reflexivity. Qed.

Lemma make_ok (n : Z) :
  0 <= n -> slice.make n = Ret (repeat x00 (Z.to_nat n)).
Proof.
  intros Hn. unfold slice.make.
  destruct (Z.ltb_spec n 0); [lia | reflexivity].
Qed.

Lemma slice_to_ok {A : Type} (s : list A) (hi : Z) :
  0 <= hi <= len s -> slice.to s hi = Ret (firstn (Z.to_nat hi) s).
Proof.
  intros Hh. unfold slice.to.
  destruct (Z.ltb_spec hi 0); [lia|].
  destruct (Z.ltb_spec (len s) hi); [lia | reflexivity].
Qed.

Lemma slice_from_ok {A : Type} (s : list A) (lo : Z) :
  0 <= lo <= len s -> slice.from s lo = Ret (skipn (Z.to_nat lo) s).
Proof.
  intros Hl. unfold slice.from.
  destruct (Z.ltb_spec lo 0); [lia|].
  destruct (Z.ltb_spec (len s) lo); [lia | reflexivity].
Qed.

Lemma slice_from_short {A : Type} (s : list A) (lo : Z) :
  len s < lo -> slice.from s lo = Panic "slice bounds out of range".
Proof.
  intros Hl. unfold slice.from.
  destruct (Z.ltb_spec lo 0); [reflexivity|].
  destruct (Z.ltb_spec (len s) lo); [reflexivity | lia].
Qed.

(** [copy] keeps the length of its destination. *)
Lemma copy_from_len {A : Type} (dst : list A) (lo : Z) (src : list A) :
  0 <= lo <= len dst ->
  exists out, slice.copy_from dst lo src = Ret out /\ len out = len dst.
Proof.
  intros Hl. unfold slice.copy_from.
  rewrite slice_from_ok by assumption. cbn [bind].
  eexists. split; [reflexivity|].
  unfold len in *.
  rewrite !length_app, !length_firstn, !length_skipn.
  lia.
Qed.

(** A source that fills the window exactly replaces it. *)
Lemma copy_from_exact {A : Type} (pre win src : list A) :
  List.length win = List.length src ->
  slice.copy_from (pre ++ win) (len pre) src = Ret (pre ++ src).
Proof.
  intros Hw. unfold slice.copy_from.
  rewrite slice_from_ok by (rewrite len_app; pose proof (len_nonneg win);
                            pose proof (len_nonneg pre); lia).
  cbn [bind]. unfold len. rewrite Nat2Z.id.
  rewrite skipn_app, skipn_all, Nat.sub_diag. cbn [skipn app].
  rewrite firstn_app, firstn_all, Nat.sub_diag. cbn [firstn].
  rewrite app_nil_r, Hw, Nat.min_id, firstn_all, skipn_all2 by lia.
  rewrite app_nil_r. reflexivity.
Qed.

Lemma copy_from_zeros (n : Z) (src : list byte) :
  len src <= n ->
  slice.copy_from (repeat x00 (Z.to_nat n)) (n - len src) src
  = Ret (repeat x00 (Z.to_nat (n - len src)) ++ src).
Proof.
  intros Hn. pose proof (len_nonneg src) as H0.
  replace (Z.to_nat n)
    with (Z.to_nat (n - len src) + List.length src)%nat by (unfold len in *; lia).
  rewrite repeat_app.
  replace (n - len src) with (len (repeat x00 (Z.to_nat (n - len src)))) at 2
    by (rewrite len_repeat; lia).
  apply copy_from_exact. apply repeat_length.
Qed.

(* ================================================================= *)
(** ** Facts about the curves *)

Lemma Nlen_eq (a : ecdsaAlgo) :
  params_fit (curve a) ->
  Nlen a = (big.BitLen (elliptic.N (elliptic.Params (curve a))) + 7) / 8
  /\ 0 <= Nlen a < 2 ^ 60.
Proof.
  intros [Hn _]. unfold Nlen.
  pose proof (BitLen_nonneg (elliptic.N (elliptic.Params (curve a)))).
  split; [apply bitsToBytes_small | apply bitsToBytes_range]; lia.
Qed.

Lemma Plen_eq (a : ecdsaAlgo) :
  params_fit (curve a) ->
  Plen a = (big.BitLen (elliptic.P (elliptic.Params (curve a))) + 7) / 8
  /\ 0 <= Plen a < 2 ^ 60.
Proof.
  intros [_ Hp]. unfold Plen.
  pose proof (BitLen_nonneg (elliptic.P (elliptic.Params (curve a)))).
  split; [apply bitsToBytes_small | apply bitsToBytes_range]; lia.
Qed.

Lemma affineScalarMult_range (params : elliptic.CurveParams) (a x y : Z)
      (k : list byte) :
  0 < elliptic.P params ->
  0 <= fst (elliptic.affineScalarMult params a x y k) < elliptic.P params
  /\ 0 <= snd (elliptic.affineScalarMult params a x y k) < elliptic.P params.
Proof.
  intros Hp. unfold elliptic.affineScalarMult.
  destruct (big.SetBytes k) as [|n|n]; cbn [fst snd]; try lia.
  destruct (elliptic.affineMul params a n x y) as [x' y'].
  cbn [fst snd]. split; apply Z.mod_pos_bound; assumption.
Qed.

Lemma affineCurve_ok (params : elliptic.CurveParams) (a : Z) (address : positive) :
  1 < elliptic.N params ->
  0 < elliptic.P params ->
  big.BitLen (elliptic.N params) < 2 ^ 62 ->
  big.BitLen (elliptic.P params) < 2 ^ 62 ->
  curve_ok (elliptic.affineCurve params a address).
Proof.
  intros Hn Hp Hbn Hbp. constructor; cbn.
  - split; assumption.
  - assumption.
  - reflexivity.
  - intros k. apply affineScalarMult_range. assumption.
Qed.

Lemma newECDSAP256_ok : curve_ok (curve newECDSAP256).
Proof. apply affineCurve_ok; vm_compute; reflexivity. Qed.

Lemma newECDSASecp256k1_ok : curve_ok (curve newECDSASecp256k1).
Proof. apply affineCurve_ok; vm_compute; reflexivity. Qed.

(* ================================================================= *)
(** ** Key generation *)

Lemma seed_scalar_range (n : Z) (seed : list byte) :
  1 < n -> 1 <= seed_scalar n seed <= n - 1.
Proof.
  intros Hn. unfold seed_scalar.
  pose proof (Z.mod_pos_bound (big.SetBytes seed) (n - 1) ltac:(lia)). lia.
Qed.

Lemma goecdsaGenerateKey_eq (c : elliptic.Curve) (seed : list byte) :
  1 < elliptic.N (elliptic.Params c) ->
  let d := seed_scalar (elliptic.N (elliptic.Params c)) seed in
  goecdsaGenerateKey c seed
  = Ret {| goecdsa.Public :=
             {| goecdsa.Curve := c;
                goecdsa.X := fst (elliptic.ScalarBaseMult c (big.Bytes d));
                goecdsa.Y := snd (elliptic.ScalarBaseMult c (big.Bytes d)) |};
           goecdsa.D := d |}.
Proof.
  intros Hn d. unfold goecdsaGenerateKey, big.Mod, one.
  destruct (Z.eqb_spec (elliptic.N (elliptic.Params c) - 1) 0) as [E|E]; [lia|].
  rewrite Z.abs_eq by lia. cbn [bind].
  fold (seed_scalar (elliptic.N (elliptic.Params c)) seed). fold d.
  destruct (elliptic.ScalarBaseMult c (big.Bytes d)) as [x y].
  reflexivity.
Qed.

Lemma minSeedLen_eq (a : ecdsaAlgo) :
  params_fit (curve a) ->
  int.add (Nlen a) (securityBits / 8) = Nlen a + 16.
Proof.
  intros Hfit. destruct (Nlen_eq a Hfit) as [_ Hr].
  change (securityBits / 8) with 16. unfold int.add.
  apply int_wrap_small. lia.
Qed.

Lemma generatePrivateKey_short (a : ecdsaAlgo) (seed : list byte) :
  params_fit (curve a) ->
  len seed < Nlen a + 16 ->
  generatePrivateKey a seed
  = Ret (None, Some ("seed should be at least " ++ int.format (Nlen a + 16)
                       ++ " bytes")%string).
Proof.
  intros Hfit Hlen. unfold generatePrivateKey.
  rewrite minSeedLen_eq by assumption.
  destruct (Z.ltb_spec (len seed) (Nlen a + 16)); [reflexivity | lia].
Qed.

Lemma generatePrivateKey_long (a : ecdsaAlgo) (seed : list byte) :
  curve_ok (curve a) ->
  Nlen a + 16 <= len seed ->
  let c := curve a in
  let d := seed_scalar (elliptic.N (elliptic.Params c)) seed in
  generatePrivateKey a seed
  = Ret (Some (PrivateECDSA
           {| sk_alg := a;
              goPrKey :=
                {| goecdsa.Public :=
                     {| goecdsa.Curve := c;
                        goecdsa.X := fst (elliptic.ScalarBaseMult c (big.Bytes d));
                        goecdsa.Y := snd (elliptic.ScalarBaseMult c (big.Bytes d)) |};
                   goecdsa.D := d |} |}), None).
Proof.
  intros Hok Hlen c d. unfold generatePrivateKey.
  rewrite minSeedLen_eq by apply Hok.
  destruct (Z.ltb_spec (len seed) (Nlen a + 16)); [lia|].
  rewrite goecdsaGenerateKey_eq by apply Hok.
  reflexivity.
Qed.

(** C1.  For a seed of at least [Nlen + 16] bytes, [generatePrivateKey]
    succeeds; the scalar of the key is [d = (k mod (n-1)) + 1] where [k] is
    the seed read as a big-endian unsigned integer and [n] the order of the
    curve; [d] lies in [[1, n-1]]; and the public point of the key is the
    multiple [d * G] of the base point [G = (Gx, Gy)], as the curve's
    [ScalarMult] computes it from the big-endian bytes of [d]. *)
Theorem generatePrivateKey_scalar_and_point (a : ecdsaAlgo) (seed : list byte) :
  curve_ok (curve a) ->
  Nlen a + 16 <= len seed ->
  let c := curve a in
  let n := elliptic.N (elliptic.Params c) in
  let k := big.SetBytes seed in
  let d := k mod (n - 1) + 1 in
  1 <= d <= n - 1
  /\ exists sk : PrKeyECDSA,
       generatePrivateKey a seed = Ret (Some (PrivateECDSA sk), None)
       /\ sk_alg sk = a
       /\ goecdsa.D (goPrKey sk) = d
       /\ goecdsa.Curve (goecdsa.Public (goPrKey sk)) = c
       /\ (goecdsa.X (goecdsa.Public (goPrKey sk)),
           goecdsa.Y (goecdsa.Public (goPrKey sk)))
          = elliptic.ScalarMult c (elliptic.Gx (elliptic.Params c))
                                  (elliptic.Gy (elliptic.Params c)) (big.Bytes d).
Proof.
  intros Hok Hlen c n k d.
  split.
  - apply (seed_scalar_range n seed), Hok.
  - eexists. split; [apply generatePrivateKey_long; assumption|].
    cbn [sk_alg goPrKey goecdsa.D goecdsa.Public goecdsa.Curve goecdsa.X goecdsa.Y].
    repeat split.
    rewrite <- (ok_base _ Hok). unfold seed_scalar.
    symmetry. apply surjective_pairing.
Qed.

Lemma generatePrivateKey_scalar_and_point_witness :
  curve_ok (curve newECDSAP256)
  /\ Nlen newECDSAP256 + 16 <= len zeroSeed
  /\ exists sk : PrKeyECDSA,
       generatePrivateKey newECDSAP256 zeroSeed = Ret (Some (PrivateECDSA sk), None)
       /\ goecdsa.D (goPrKey sk) = 1
       /\ (goecdsa.X (goecdsa.Public (goPrKey sk)),
           goecdsa.Y (goecdsa.Public (goPrKey sk)))
          = (elliptic.Gx elliptic.p256Params, elliptic.Gy elliptic.p256Params).
Proof.
  assert (Nlen newECDSAP256 + 16 <= len zeroSeed) as Hlen
    by (vm_compute; discriminate).
  split; [exact newECDSAP256_ok|]. split; [exact Hlen|].
  destruct (generatePrivateKey_scalar_and_point newECDSAP256 zeroSeed
              newECDSAP256_ok Hlen) as [_ [sk [Hgen [_ [Hd [_ Hpub]]]]]].
  exists sk. split; [exact Hgen|]. split; [exact Hd|].
  rewrite Hpub. vm_compute. reflexivity.
Defined.

(** C7.  [generatePrivateKey] fails, with the error "seed should be at least
    [Nlen + 16] bytes", exactly when the seed is shorter than [Nlen + 16]
    bytes: a seed of [Nlen] bytes is rejected, and every seed of at least
    [Nlen + 16] bytes passes the length check and yields a key. *)
Theorem generatePrivateKey_seed_length (a : ecdsaAlgo) (seed : list byte) :
  curve_ok (curve a) ->
  ((exists e, generatePrivateKey a seed = Ret (None, Some e))
   <-> len seed < Nlen a + 16)
  /\ (len seed < Nlen a + 16 ->
      generatePrivateKey a seed
      = Ret (None, Some ("seed should be at least " ++ int.format (Nlen a + 16)
                           ++ " bytes")%string))
  /\ (len seed = Nlen a ->
      exists e, generatePrivateKey a seed = Ret (None, Some e))
  /\ (Nlen a + 16 <= len seed ->
      exists sk, generatePrivateKey a seed = Ret (Some sk, None)).
Proof.
  intros Hok.
  assert (Hshort := generatePrivateKey_short a seed (ok_fit _ Hok)).
  assert (Hlong := generatePrivateKey_long a seed Hok).
  repeat split.
  - intros [e He].
    destruct (Z.lt_ge_cases (len seed) (Nlen a + 16)) as [Hlt|Hge]; [exact Hlt|].
    rewrite (Hlong Hge) in He. discriminate He.
  - intros Hlt. eexists. apply Hshort, Hlt.
  - exact Hshort.
  - intros Heq. eexists. apply Hshort. lia.
  - intros Hge. eexists. apply Hlong, Hge.
Qed.

Lemma generatePrivateKey_seed_length_witness :
  curve_ok (curve newECDSAP256)
  /\ generatePrivateKey newECDSAP256 (repeat x01 32)
     = Ret (None, Some "seed should be at least 48 bytes"%string)
  /\ exists sk, generatePrivateKey newECDSAP256 zeroSeed = Ret (Some sk, None).
Proof.
  destruct (generatePrivateKey_seed_length newECDSAP256 (repeat x01 32)
              newECDSAP256_ok) as [_ [Hshort _]].
  destruct (generatePrivateKey_seed_length newECDSAP256 zeroSeed
              newECDSAP256_ok) as [_ [_ [_ Hlong]]].
  split; [exact newECDSAP256_ok|]. split.
  - apply Hshort. vm_compute. reflexivity.
  - apply Hlong. vm_compute. discriminate.
Defined.



(* ================================================================= *)
(** ** Raw encoding of private keys *)

Lemma rawEncode_private (sk : PrKeyECDSA) :
  params_fit (curve (sk_alg sk)) ->
  let skBytes := big.Bytes (goecdsa.D (goPrKey sk)) in
  len skBytes <= Nlen (sk_alg sk) ->
  PrKeyECDSA.rawEncode sk
  = Ret (repeat x00 (Z.to_nat (Nlen (sk_alg sk) - len skBytes)) ++ skBytes).
Proof.
  intros Hfit skBytes Hlen. unfold PrKeyECDSA.rawEncode. fold skBytes.
  destruct (Nlen_eq _ Hfit) as [_ Hr].
  pose proof (len_nonneg skBytes).
  rewrite make_ok by lia. cbn [bind].
  unfold int.sub. rewrite int_wrap_small by lia.
  rewrite copy_from_zeros by assumption. reflexivity.
Qed.

Lemma rawDecodePrivateKey_ok (a : ecdsaAlgo) (der : list byte) :
  len der = Nlen a ->
  rawDecodePrivateKey a der
  = Ret (Some (PrivateECDSA
           {| sk_alg := a;
              goPrKey :=
                {| goecdsa.Public :=
                     {| goecdsa.Curve := curve a;
                        goecdsa.X := fst (elliptic.ScalarBaseMult (curve a) der);
                        goecdsa.Y := snd (elliptic.ScalarBaseMult (curve a) der) |};
                   goecdsa.D := big.SetBytes der |} |}), None).
Proof.
  intros Hlen. unfold rawDecodePrivateKey.
  rewrite Hlen, Z.eqb_refl. cbn [negb].
  destruct (elliptic.ScalarBaseMult (curve a) der) as [x y]. reflexivity.
Qed.

Lemma rawDecodePrivateKey_bad_length (a : ecdsaAlgo) (der : list byte) :
  len der <> Nlen a ->
  rawDecodePrivateKey a der
  = Ret (None, Some (errors.New "raw private key is not valid")).
Proof.
  intros Hlen. unfold rawDecodePrivateKey.
  destruct (Z.eqb_spec (len der) (Nlen a)); [contradiction | reflexivity].
Qed.

Lemma Cmp_refl (x : Z) : big.Cmp x x = 0.
Proof. unfold big.Cmp. rewrite Z.compare_refl. reflexivity. Qed.

Lemma same_refl (c : elliptic.Curve) : elliptic.same c c = true.
Proof. unfold elliptic.same. apply Pos.eqb_refl. Qed.

Lemma len_Bytes_below_order (a : ecdsaAlgo) (d : Z) :
  params_fit (curve a) ->
  0 <= d <= elliptic.N (elliptic.Params (curve a)) ->
  len (big.Bytes d) <= Nlen a.
Proof.
  intros Hfit Hd. destruct (Nlen_eq a Hfit) as [-> _].
  apply len_Bytes_le. lia.
Qed.

(** C4.  For a seed of at least [Nlen + 16] bytes, the raw encoding of the
    generated key decodes to a key that [Equals] the generated key (same
    curve, equal scalar). *)
Theorem decode_encode_generated_key (a : ecdsaAlgo) (seed : list byte) :
  curve_ok (curve a) ->
  Nlen a + 16 <= len seed ->
  exists (sk sk' : PrKeyECDSA) (der : list byte),
    generatePrivateKey a seed = Ret (Some (PrivateECDSA sk), None)
    /\ PrKeyECDSA.Encode sk = Ret der
    /\ decodePrivateKey a der = Ret (Some (PrivateECDSA sk'), None)
    /\ PrKeyECDSA.Equals sk' (PrivateECDSA sk) = true
    /\ PrKeyECDSA.Equals sk (PrivateECDSA sk') = true.
Proof.
  intros Hok Hlen.
  pose proof (ok_fit _ Hok) as Hfit.
  pose proof (seed_scalar_range _ seed (ok_order _ Hok)) as Hd.
  set (d := seed_scalar _ seed) in Hd.
  assert (len (big.Bytes d) <= Nlen a) as Hb
    by (apply len_Bytes_below_order; [assumption | lia]).
  pose proof (len_nonneg (big.Bytes d)) as Hb0.
  do 3 eexists.
  split; [apply generatePrivateKey_long; assumption|].
  split.
  { unfold PrKeyECDSA.Encode. apply rawEncode_private; assumption. }
  cbn [sk_alg goPrKey goecdsa.D]. fold d.
  split.
  { unfold decodePrivateKey. apply rawDecodePrivateKey_ok.
    rewrite len_app, len_repeat. lia. }
  unfold PrKeyECDSA.Equals.
  cbn [sk_alg goPrKey goecdsa.D].
  rewrite same_refl. cbn [negb].
  rewrite SetBytes_zeros, SetBytes_Bytes, Z.abs_eq by lia.
  rewrite Cmp_refl. split; reflexivity.
Qed.

Lemma decode_encode_generated_key_witness :
  curve_ok (curve newECDSASecp256k1)
  /\ Nlen newECDSASecp256k1 + 16 <= len onesSeed
  /\ exists (sk sk' : PrKeyECDSA) (der : list byte),
       generatePrivateKey newECDSASecp256k1 onesSeed
       = Ret (Some (PrivateECDSA sk), None)
       /\ PrKeyECDSA.Encode sk = Ret der
       /\ decodePrivateKey newECDSASecp256k1 der
          = Ret (Some (PrivateECDSA sk'), None)
       /\ PrKeyECDSA.Equals sk' (PrivateECDSA sk) = true
       /\ PrKeyECDSA.Equals sk (PrivateECDSA sk') = true.
Proof.
  assert (Nlen newECDSASecp256k1 + 16 <= len onesSeed) as Hlen
    by (vm_compute; discriminate).
  split; [exact newECDSASecp256k1_ok|]. split; [exact Hlen|].
  exact (decode_encode_generated_key newECDSASecp256k1 onesSeed
           newECDSASecp256k1_ok Hlen).
Defined.

(** C6 (as stated, refuted).  The 32 zero bytes have the length of a P-256
    private key and the value [d = 0], which is out of range for a scalar;
    [decodePrivateKey] returns a key with that scalar and no error. *)
Lemma decodePrivateKey_accepts_zero_scalar :
  len (repeat x00 32) = Nlen newECDSAP256
  /\ big.SetBytes (repeat x00 32) = 0
  /\ exists sk : PrKeyECDSA,
       decodePrivateKey newECDSAP256 (repeat x00 32)
       = Ret (Some (PrivateECDSA sk), None)
       /\ goecdsa.D (goPrKey sk) = 0.
Proof.
  split; [vm_compute; reflexivity|]. split; [vm_compute; reflexivity|].
  eexists. split.
  - unfold decodePrivateKey. apply rawDecodePrivateKey_ok.
    vm_compute. reflexivity.
  - vm_compute. reflexivity.
Qed.

(** C6 (amended).  [decodePrivateKey] checks the length of its input and
    nothing else: every buffer of exactly [Nlen] bytes is accepted, whatever
    its big-endian value [d] (also [d = 0] and [d >= n]), and the key
    returned has the scalar [d] and the public point that [ScalarBaseMult]
    gives for the buffer. *)
Theorem decodePrivateKey_length_only (a : ecdsaAlgo) (der : list byte) :
  len der = Nlen a ->
  exists sk : PrKeyECDSA,
    decodePrivateKey a der = Ret (Some (PrivateECDSA sk), None)
    /\ sk_alg sk = a
    /\ goecdsa.D (goPrKey sk) = big.SetBytes der
    /\ goecdsa.Curve (goecdsa.Public (goPrKey sk)) = curve a
    /\ (goecdsa.X (goecdsa.Public (goPrKey sk)),
        goecdsa.Y (goecdsa.Public (goPrKey sk)))
       = elliptic.ScalarBaseMult (curve a) der.
Proof.
  intros Hlen. eexists. split.
  - unfold decodePrivateKey. apply rawDecodePrivateKey_ok, Hlen.
  - cbn [sk_alg goPrKey goecdsa.D goecdsa.Public goecdsa.Curve goecdsa.X goecdsa.Y].
    repeat split. symmetry. apply surjective_pairing.
Qed.

Lemma decodePrivateKey_length_only_witness :
  len (repeat xff 32) = Nlen newECDSAP256
  /\ elliptic.N elliptic.p256Params <= big.SetBytes (repeat xff 32)
  /\ exists sk : PrKeyECDSA,
       decodePrivateKey newECDSAP256 (repeat xff 32)
       = Ret (Some (PrivateECDSA sk), None)
       /\ goecdsa.D (goPrKey sk) = 2 ^ 256 - 1.
Proof.
  assert (len (repeat xff 32) = Nlen newECDSAP256) as Hlen
    by (vm_compute; reflexivity).
  split; [exact Hlen|]. split; [vm_compute; discriminate|].
  destruct (decodePrivateKey_length_only newECDSAP256 (repeat xff 32) Hlen)
    as [sk [Hdec [_ [Hd _]]]].
  exists sk. split; [exact Hdec|].
  rewrite Hd. vm_compute. reflexivity.
Defined.

(* ================================================================= *)
(** ** Decoding of public keys *)

Lemma rawDecodePublicKey_ok (a : ecdsaAlgo) (der : list byte) :
  params_fit (curve a) ->
  len der = 2 * Plen a ->
  rawDecodePublicKey a der
  = Ret (Some (PublicECDSA
           {| pk_alg := a;
              goPubKey :=
                {| goecdsa.Curve := curve a;
                   goecdsa.X := big.SetBytes (firstn (Z.to_nat (Plen a)) der);
                   goecdsa.Y := big.SetBytes (skipn (Z.to_nat (Plen a)) der) |} |}),
         None).
Proof.
  intros Hfit Hlen. destruct (Plen_eq a Hfit) as [_ Hr].
  unfold rawDecodePublicKey, int.mul.
  rewrite int_wrap_small by lia.
  rewrite Hlen, Z.eqb_refl. cbn [negb].
  rewrite slice_to_ok, slice_from_ok by lia.
  reflexivity.
Qed.

Lemma rawDecodePublicKey_bad_length (a : ecdsaAlgo) (der : list byte) :
  params_fit (curve a) ->
  len der <> 2 * Plen a ->
  rawDecodePublicKey a der
  = Ret (None, Some (errors.New "raw public key is not valid")).
Proof.
  intros Hfit Hlen. destruct (Plen_eq a Hfit) as [_ Hr].
  unfold rawDecodePublicKey, int.mul.
  rewrite int_wrap_small by lia.
  destruct (Z.eqb_spec (len der) (2 * Plen a)); [contradiction | reflexivity].
Qed.

(** C2 (as stated, refuted).  The 64 zero bytes have the length of a P-256
    public key and decode to [(0, 0)], which is the point at infinity and
    does not satisfy the curve equation; [decodePublicKey] returns a key
    with that point and no error. *)
Lemma decodePublicKey_accepts_invalid_point :
  len (repeat x00 64) = 2 * Plen newECDSAP256
  /\ elliptic.IsOnCurve (curve newECDSAP256) 0 0 = false
  /\ exists pk : PubKeyECDSA,
       decodePublicKey newECDSAP256 (repeat x00 64)
       = Ret (Some (PublicECDSA pk), None)
       /\ goecdsa.X (goPubKey pk) = 0
       /\ goecdsa.Y (goPubKey pk) = 0.
Proof.
  split; [vm_compute; reflexivity|]. split; [vm_compute; reflexivity|].
  eexists. split.
  - unfold decodePublicKey. apply rawDecodePublicKey_ok.
    + apply newECDSAP256_ok.
    + vm_compute. reflexivity.
  - split; vm_compute; reflexivity.
Qed.

(** C2 (amended).  [decodePublicKey] fails with the error "raw public key is
    not valid" when the buffer is not exactly [2 * Plen] bytes long; every
    buffer of exactly [2 * Plen] bytes is accepted, and the key returned has
    the big-endian value of the first [Plen] bytes as [x] and of the last
    [Plen] bytes as [y].  The point is not checked against the curve. *)
Theorem decodePublicKey_length_only (a : ecdsaAlgo) (der : list byte) :
  params_fit (curve a) ->
  (len der <> 2 * Plen a ->
   decodePublicKey a der
   = Ret (None, Some (errors.New "raw public key is not valid")))
  /\ (len der = 2 * Plen a ->
      exists pk : PubKeyECDSA,
        decodePublicKey a der = Ret (Some (PublicECDSA pk), None)
        /\ pk_alg pk = a
        /\ goecdsa.Curve (goPubKey pk) = curve a
        /\ goecdsa.X (goPubKey pk) = big.SetBytes (firstn (Z.to_nat (Plen a)) der)
        /\ goecdsa.Y (goPubKey pk) = big.SetBytes (skipn (Z.to_nat (Plen a)) der)).
Proof.
  intros Hfit. split; intros Hlen.
  - unfold decodePublicKey. apply rawDecodePublicKey_bad_length; assumption.
  - eexists. split.
    + unfold decodePublicKey. apply rawDecodePublicKey_ok; assumption.
    + cbn [pk_alg goPubKey goecdsa.Curve goecdsa.X goecdsa.Y]. repeat split.
Qed.

Lemma decodePublicKey_length_only_witness :
  params_fit (curve newECDSAP256)
  /\ decodePublicKey newECDSAP256 (repeat x01 63)
     = Ret (None, Some (errors.New "raw public key is not valid"))
  /\ exists pk : PubKeyECDSA,
       decodePublicKey newECDSAP256 (repeat x00 31 ++ [x01] ++ repeat x00 31 ++ [x01])
       = Ret (Some (PublicECDSA pk), None)
       /\ goecdsa.X (goPubKey pk) = 1
       /\ goecdsa.Y (goPubKey pk) = 1
       /\ elliptic.IsOnCurve (curve newECDSAP256) 1 1 = false.
Proof.
  pose proof (ok_fit _ newECDSAP256_ok) as Hfit.
  split; [exact Hfit|]. split.
  - apply (decodePublicKey_length_only newECDSAP256 (repeat x01 63) Hfit).
    vm_compute. discriminate.
  - destruct (decodePublicKey_length_only newECDSAP256
                (repeat x00 31 ++ [x01] ++ repeat x00 31 ++ [x01]) Hfit)
      as [_ Hok].
    destruct Hok as [pk [Hdec [_ [_ [Hx Hy]]]]]; [vm_compute; reflexivity|].
    exists pk. split; [exact Hdec|].
    rewrite Hx, Hy. repeat split; vm_compute; reflexivity.
Defined.

(* ================================================================= *)
(** ** Sign and Verify *)

(** C9.  [Sign] and [Verify] require a hasher: with a nil hasher [Sign]
    returns no signature and the error "Sign requires a Hasher" (and leaves
    the random source untouched), and [Verify] returns the error "Verify
    requires a Hasher" instead of a verdict. *)
Theorem Sign_Verify_require_hasher
        (Reader : Type)
        (goecdsa_Sign : Reader -> goecdsa.PrivateKey -> list byte
                        -> (Z * Z + error) * Reader)
        (rand : Reader) (sk : PrKeyECDSA) (pk : PubKeyECDSA)
        (sig : Signature) (data : list byte) :
  PrKeyECDSA.Sign goecdsa_Sign rand sk data None
  = (Ret (None, Some (errors.New "Sign requires a Hasher")), rand)
  /\ PubKeyECDSA.Verify pk sig data None
     = Ret (false, Some (errors.New "Verify requires a Hasher")).
Proof. split; reflexivity. Qed.

Lemma verifyHash_split (pk : PubKeyECDSA) (sig : Signature) (h : hash.Hash) :
  params_fit (curve (pk_alg pk)) ->
  Nlen (pk_alg pk) <= len sig ->
  PubKeyECDSA.verifyHash pk sig h
  = (b <- goecdsa.Verify (goPubKey pk) h
            (big.SetBytes (firstn (Z.to_nat (Nlen (pk_alg pk))) sig))
            (big.SetBytes (skipn (Z.to_nat (Nlen (pk_alg pk))) sig)) ;;
     Ret (b, None)).
Proof.
  intros Hfit Hlen. destruct (Nlen_eq _ Hfit) as [_ Hr].
  unfold PubKeyECDSA.verifyHash.
  rewrite slice_to_ok, slice_from_ok by lia.
  reflexivity.
Qed.


Lemma Sign_nonpos (x : Z) : (big.Sign x <=? 0) = (x <=? 0).
Proof. destruct x; reflexivity. Qed.

Lemma Cmp_ge (x y : Z) : (big.Cmp x y >=? 0) = (y <=? x).
Proof.
  unfold big.Cmp.
  destruct (Z.compare_spec x y); destruct (Z.leb_spec y x); try reflexivity; lia.
Qed.

(** crypto/ecdsa rejects a signature with a component outside [[1, N-1]]. *)
Lemma goecdsa_Verify_out_of_range
      (pub : goecdsa.PublicKey) (hash : list byte) (r s : Z) :
  r <= 0 \/ s <= 0
  \/ elliptic.N (elliptic.Params (goecdsa.Curve pub)) <= r
  \/ elliptic.N (elliptic.Params (goecdsa.Curve pub)) <= s ->
  goecdsa.Verify pub hash r s = Ret false.
Proof.
  intros Hout. unfold goecdsa.Verify.
  rewrite !Sign_nonpos, !Cmp_ge.
  destruct (Z.leb_spec r 0); [reflexivity|].
  destruct (Z.leb_spec s 0); [reflexivity|]. cbn [orb].
  destruct (Z.leb_spec (elliptic.N (elliptic.Params (goecdsa.Curve pub))) r);
    [reflexivity|].
  destruct (Z.leb_spec (elliptic.N (elliptic.Params (goecdsa.Curve pub))) s);
    [reflexivity|].
  lia.
Qed.






(** C5.  For a signature of exactly [2 * Nlen] bytes whose half [r] or [s]
    is zero or at least [n], [Verify] returns [false] with a nil error: an
    ordinary verdict, neither an error nor a panic.  Here [n] is the order
    of the curve held by the public key, the one crypto/ecdsa checks
    against. *)
Theorem Verify_out_of_range_is_false
        (pk : PubKeyECDSA) (sig : Signature) (data : list byte)
        (alg : hash.Hasher) :
  params_fit (curve (pk_alg pk)) ->
  len sig = 2 * Nlen (pk_alg pk) ->
  let n := elliptic.N (elliptic.Params (goecdsa.Curve (goPubKey pk))) in
  let r := big.SetBytes (firstn (Z.to_nat (Nlen (pk_alg pk))) sig) in
  let s := big.SetBytes (skipn (Z.to_nat (Nlen (pk_alg pk))) sig) in
  r = 0 \/ n <= r \/ s = 0 \/ n <= s ->
  PubKeyECDSA.Verify pk sig data (Some alg) = Ret (false, None).
Proof.
  intros Hfit Hlen n r s Hout.
  destruct (Nlen_eq _ Hfit) as [_ Hr].
  unfold PubKeyECDSA.Verify.
  rewrite verifyHash_split by (assumption || lia).
  fold r s. rewrite goecdsa_Verify_out_of_range; [reflexivity|].
  fold n. lia.
Qed.

Lemma Verify_out_of_range_is_false_witness :
  params_fit (curve (pk_alg basePointKey))
  /\ len (repeat xff 32 ++ repeat x01 32) = 2 * Nlen (pk_alg basePointKey)
  /\ elliptic.N elliptic.p256Params <= big.SetBytes (repeat xff 32)
  /\ PubKeyECDSA.Verify basePointKey (repeat xff 32 ++ repeat x01 32) [x2a]
                        (Some prefixHasher)
     = Ret (false, None).
Proof.
  pose proof (ok_fit _ newECDSAP256_ok) as Hfit.
  split; [exact Hfit|].
  split; [vm_compute; reflexivity|].
  split; [vm_compute; discriminate|].
  apply (Verify_out_of_range_is_false basePointKey
           (repeat xff 32 ++ repeat x01 32) [x2a] prefixHasher Hfit).
  - vm_compute. reflexivity.
  - right. left. vm_compute. discriminate.
Defined.

(* ================================================================= *)
(** ** Length of the raw encodings *)

Lemma generatePrivateKey_inv (a : ecdsaAlgo) (seed : list byte) (sk : PrKeyECDSA) :
  curve_ok (curve a) ->
  generatePrivateKey a seed = Ret (Some (PrivateECDSA sk), None) ->
  let c := curve a in
  let d := seed_scalar (elliptic.N (elliptic.Params c)) seed in
  sk = {| sk_alg := a;
          goPrKey :=
            {| goecdsa.Public :=
                 {| goecdsa.Curve := c;
                    goecdsa.X := fst (elliptic.ScalarBaseMult c (big.Bytes d));
                    goecdsa.Y := snd (elliptic.ScalarBaseMult c (big.Bytes d)) |};
               goecdsa.D := d |} |}.
Proof.
  intros Hok Hgen c d.
  destruct (Z.lt_ge_cases (len seed) (Nlen a + 16)) as [Hlt|Hge].
  - rewrite generatePrivateKey_short in Hgen by (apply Hok || assumption).
    discriminate Hgen.
  - rewrite generatePrivateKey_long in Hgen by assumption.
    injection Hgen as <-. reflexivity.
Qed.

Lemma decodePrivateKey_inv (a : ecdsaAlgo) (der : list byte) (sk : PrKeyECDSA) :
  decodePrivateKey a der = Ret (Some (PrivateECDSA sk), None) ->
  len der = Nlen a
  /\ sk = {| sk_alg := a;
             goPrKey :=
               {| goecdsa.Public :=
                    {| goecdsa.Curve := curve a;
                       goecdsa.X := fst (elliptic.ScalarBaseMult (curve a) der);
                       goecdsa.Y := snd (elliptic.ScalarBaseMult (curve a) der) |};
                  goecdsa.D := big.SetBytes der |} |}.
Proof.
  unfold decodePrivateKey. intros Hdec.
  destruct (Z.eq_dec (len der) (Nlen a)) as [Heq|Hne].
  - rewrite rawDecodePrivateKey_ok in Hdec by assumption.
    injection Hdec as <-. split; [assumption | reflexivity].
  - rewrite rawDecodePrivateKey_bad_length in Hdec by assumption.
    discriminate Hdec.
Qed.

(** What every constructed private key satisfies: it belongs to the
    algorithm, its scalar fits in [Nlen] bytes, and its public part is on the
    algorithm's curve with coordinates below the field prime. *)
Lemma constructed_private_inv (a : ecdsaAlgo) (sk : PrKeyECDSA) :
  curve_ok (curve a) ->
  constructed_private a sk ->
  sk_alg sk = a
  /\ len (big.Bytes (goecdsa.D (goPrKey sk))) <= Nlen a
  /\ goecdsa.Curve (goecdsa.Public (goPrKey sk)) = curve a
  /\ 0 <= goecdsa.X (goecdsa.Public (goPrKey sk))
          < elliptic.P (elliptic.Params (curve a))
  /\ 0 <= goecdsa.Y (goecdsa.Public (goPrKey sk))
          < elliptic.P (elliptic.Params (curve a)).
Proof.
  intros Hok Hc. destruct Hc as [seed sk Hgen | der sk Hdec].
  - rewrite (generatePrivateKey_inv a seed sk Hok Hgen).
    cbn [sk_alg goPrKey goecdsa.D goecdsa.Public goecdsa.Curve goecdsa.X goecdsa.Y].
    pose proof (seed_scalar_range _ seed (ok_order _ Hok)).
    split; [reflexivity|]. split.
    { apply len_Bytes_below_order; [apply Hok | lia]. }
    split; [reflexivity|]. apply (ok_coords _ Hok).
  - destruct (decodePrivateKey_inv a der sk Hdec) as [Hlen ->].
    cbn [sk_alg goPrKey goecdsa.D goecdsa.Public goecdsa.Curve goecdsa.X goecdsa.Y].
    split; [reflexivity|]. split.
    { rewrite <- Hlen. apply len_Bytes_SetBytes. }
    split; [reflexivity|]. apply (ok_coords _ Hok).
Qed.

Lemma decodePublicKey_inv (a : ecdsaAlgo) (der : list byte) (pk : PubKeyECDSA) :
  params_fit (curve a) ->
  decodePublicKey a der = Ret (Some (PublicECDSA pk), None) ->
  len der = 2 * Plen a
  /\ pk = {| pk_alg := a;
             goPubKey :=
               {| goecdsa.Curve := curve a;
                  goecdsa.X := big.SetBytes (firstn (Z.to_nat (Plen a)) der);
                  goecdsa.Y := big.SetBytes (skipn (Z.to_nat (Plen a)) der) |} |}.
Proof.
  unfold decodePublicKey. intros Hfit Hdec.
  destruct (Z.eq_dec (len der) (2 * Plen a)) as [Heq|Hne].
  - rewrite rawDecodePublicKey_ok in Hdec by assumption.
    injection Hdec as <-. split; [assumption | reflexivity].
  - rewrite rawDecodePublicKey_bad_length in Hdec by assumption.
    discriminate Hdec.
Qed.

Lemma constructed_public_inv (a : ecdsaAlgo) (pk : PubKeyECDSA) :
  curve_ok (curve a) ->
  constructed_public a pk ->
  pk_alg pk = a
  /\ goecdsa.Curve (goPubKey pk) = curve a
  /\ len (big.Bytes (goecdsa.X (goPubKey pk))) <= Plen a
  /\ len (big.Bytes (goecdsa.Y (goPubKey pk))) <= Plen a.
Proof.
  intros Hok Hc. pose proof (ok_fit _ Hok) as Hfit.
  destruct (Plen_eq a Hfit) as [HP Hr].
  destruct Hc as [der pk Hdec | sk Hsk].
  - destruct (decodePublicKey_inv a der pk Hfit Hdec) as [Hlen ->].
    cbn [pk_alg goPubKey goecdsa.Curve goecdsa.X goecdsa.Y].
    split; [reflexivity|]. split; [reflexivity|].
    assert (Z.of_nat (List.length der) = 2 * Plen a) as Hlen' by exact Hlen.
    split.
    + eapply Z.le_trans; [apply len_Bytes_SetBytes|].
      unfold len. rewrite length_firstn. lia.
    + eapply Z.le_trans; [apply len_Bytes_SetBytes|].
      unfold len. rewrite length_skipn. lia.
  - destruct (constructed_private_inv a sk Hok Hsk)
      as [Halg [_ [Hcurve [Hx Hy]]]].
    unfold PrKeyECDSA.PublicKey. cbn [pk_alg goPubKey].
    split; [assumption|]. split; [assumption|].
    rewrite HP. split; apply len_Bytes_le; lia.
Qed.

Lemma rawEncode_public_len (pk : PubKeyECDSA) :
  params_fit (curve (pk_alg pk)) ->
  len (big.Bytes (goecdsa.X (goPubKey pk))) <= Plen (pk_alg pk) ->
  len (big.Bytes (goecdsa.Y (goPubKey pk))) <= Plen (pk_alg pk) ->
  exists out, PubKeyECDSA.rawEncode pk = Ret out
              /\ len out = 2 * Plen (pk_alg pk).
Proof.
  intros Hfit Hx Hy. destruct (Plen_eq _ Hfit) as [_ Hr].
  pose proof (len_nonneg (big.Bytes (goecdsa.X (goPubKey pk)))).
  pose proof (len_nonneg (big.Bytes (goecdsa.Y (goPubKey pk)))).
  unfold PubKeyECDSA.rawEncode, int.sub, int.mul.
  rewrite !int_wrap_small by lia.
  rewrite make_ok by lia. cbn [bind].
  destruct (copy_from_len (repeat x00 (Z.to_nat (2 * Plen (pk_alg pk))))
              (Plen (pk_alg pk) - len (big.Bytes (goecdsa.X (goPubKey pk))))
              (big.Bytes (goecdsa.X (goPubKey pk)))) as [out1 [-> Hl1]].
  { rewrite len_repeat. lia. }
  rewrite len_repeat in Hl1. cbn [bind].
  destruct (copy_from_len out1
              (2 * Plen (pk_alg pk) - len (big.Bytes (goecdsa.Y (goPubKey pk))))
              (big.Bytes (goecdsa.Y (goPubKey pk)))) as [out2 [-> Hl2]].
  { lia. }
  cbn [bind]. exists out2. split; [reflexivity | lia].
Qed.

(** C10.  For every key that the package constructs, [Encode] returns a
    buffer whose length is the key's [Size]: [Nlen] bytes for a private key
    and [2 * Plen] bytes for a public key, whatever the magnitude of the
    scalar or of the coordinates (shorter numbers are padded with zero bytes
    on the left). *)
Theorem Encode_length_is_Size (a : ecdsaAlgo) :
  curve_ok (curve a) ->
  (forall sk : PrKeyECDSA,
      constructed_private a sk ->
      exists out, PrKeyECDSA.Encode sk = Ret out
                  /\ len out = PrKeyECDSA.Size sk
                  /\ PrKeyECDSA.Size sk = Nlen a)
  /\ (forall pk : PubKeyECDSA,
         constructed_public a pk ->
         exists out, PubKeyECDSA.Encode pk = Ret out
                     /\ len out = PubKeyECDSA.Size pk
                     /\ PubKeyECDSA.Size pk = 2 * Plen a).
Proof.
  intros Hok. pose proof (ok_fit _ Hok) as Hfit. split.
  - intros sk Hsk.
    destruct (constructed_private_inv a sk Hok Hsk) as [Halg [Hd _]].
    unfold PrKeyECDSA.Encode, PrKeyECDSA.Size. rewrite Halg.
    eexists. split.
    + rewrite <- Halg. apply rawEncode_private; rewrite Halg; assumption.
    + rewrite len_app, len_repeat, Halg.
      pose proof (len_nonneg (big.Bytes (goecdsa.D (goPrKey sk)))).
      split; [lia | reflexivity].
  - intros pk Hpk.
    destruct (constructed_public_inv a pk Hok Hpk) as [Halg [Hcurve [Hx Hy]]].
    destruct (Plen_eq a Hfit) as [_ Hr].
    assert (PubKeyECDSA.Size pk = 2 * Plen a) as Hsize.
    { unfold PubKeyECDSA.Size. rewrite Hcurve. fold (Plen a).
      unfold int.mul. apply int_wrap_small. lia. }
    destruct (rawEncode_public_len pk) as [out [Henc Hlen]];
      try (rewrite Halg; assumption).
    exists out. unfold PubKeyECDSA.Encode.
    rewrite Hsize, Henc, Hlen, Halg. repeat split.
Qed.

Lemma Encode_length_is_Size_witness :
  curve_ok (curve newECDSAP256)
  /\ exists (sk : PrKeyECDSA) (out pubOut : list byte),
       constructed_private newECDSAP256 sk
       /\ goecdsa.D (goPrKey sk) = 1
       /\ PrKeyECDSA.Encode sk = Ret out
       /\ len out = 32
       /\ PubKeyECDSA.Encode (PrKeyECDSA.PublicKey sk) = Ret pubOut
       /\ len pubOut = 64.
Proof.
  split; [exact newECDSAP256_ok|].
  destruct (Encode_length_is_Size newECDSAP256 newECDSAP256_ok)
    as [Hpriv Hpub].
  pose proof (generatePrivateKey_long newECDSAP256 zeroSeed newECDSAP256_ok)
    as Hgen.
  cbv zeta in Hgen.
  match type of Hgen with
  | _ -> _ = Ret (Some (PrivateECDSA ?k), None) => set (sk := k) in Hgen
  end.
  assert (constructed_private newECDSAP256 sk) as Hc.
  { apply (generated _ zeroSeed). apply Hgen. vm_compute. discriminate. }
  destruct (Hpriv sk Hc) as [out [Henc [Hlen Hsize]]].
  destruct (Hpub _ (derived_public _ sk Hc)) as [pubOut [HencP [HlenP HsizeP]]].
  exists sk, out, pubOut.
  split; [exact Hc|]. split; [vm_compute; reflexivity|].
  split; [exact Henc|]. split.
  - rewrite Hlen, Hsize. vm_compute. reflexivity.
  - split; [exact HencP|]. rewrite HlenP, HsizeP. vm_compute. reflexivity.
Defined.

(** A signature shorter than [Nlen] bytes makes [verifyHash] slice out of
    range: [Verify] panics. *)
Lemma Verify_short_signature_panics
      (pk : PubKeyECDSA) (sig : Signature) (data : list byte)
      (alg : hash.Hasher) :
  params_fit (curve (pk_alg pk)) ->
  len sig < Nlen (pk_alg pk) ->
  PubKeyECDSA.Verify pk sig data (Some alg) = Panic "slice bounds out of range".
Proof.
  intros Hfit Hlen. destruct (Nlen_eq _ Hfit) as [_ Hr].
  unfold PubKeyECDSA.Verify, PubKeyECDSA.verifyHash, slice.to.
  destruct (Z.ltb_spec (Nlen (pk_alg pk)) 0); [lia|].
  destruct (Z.ltb_spec (len sig) (Nlen (pk_alg pk))); [reflexivity | lia].
Qed.

(** The 48-byte seed of bytes [0x01] on P-256: the scalar has 31 significant
    bytes and its encoding is padded to 32 bytes. *)
Example onesSeed_scalar :
  exists sk : PrKeyECDSA,
    generatePrivateKey newECDSAP256 onesSeed = Ret (Some (PrivateECDSA sk), None)
    /\ goecdsa.D (goPrKey sk)
       = 0x435c61b45051b886ec1ab16936000aa50ca81bfe996ad41c0c29192c288bb2
    /\ PrKeyECDSA.Encode sk
       = Ret (x00 :: big.Bytes
                0x435c61b45051b886ec1ab16936000aa50ca81bfe996ad41c0c29192c288bb2).
Proof.
  eexists. split.
  - apply generatePrivateKey_long; [exact newECDSAP256_ok|].
    vm_compute. discriminate.
  - cbn [goPrKey goecdsa.D]. split; [vm_compute; reflexivity|].
    unfold PrKeyECDSA.Encode.
    rewrite rawEncode_private.
    + cbn [goPrKey goecdsa.D sk_alg]. vm_compute. reflexivity.
    + apply newECDSAP256_ok.
    + cbn [goPrKey goecdsa.D sk_alg]. vm_compute. discriminate.
Qed.

(* ================================================================= *)
(** ** Fixed-width big-endian bytes *)

Lemma byte_of_Z_of_byte (b : byte) : big.byte_of_Z (big.Z_of_byte b) = b.
Proof.
  unfold big.byte_of_Z, big.Z_of_byte.
  pose proof (Byte.to_N_bounded b) as Hb.
  rewrite Z.mod_small by lia.
  rewrite N2Z.id, Byte.of_to_N. reflexivity.
Qed.

Lemma byte_of_Z_mod (z : Z) : big.byte_of_Z (z mod 256) = big.byte_of_Z z.
Proof. unfold big.byte_of_Z. rewrite Z.mod_mod by lia. reflexivity. Qed.

Lemma be_bytes_zero (m : nat) : big.be_bytes m 0 = repeat x00 m.
Proof.
  induction m as [|m IH]; [reflexivity|].
  cbn [big.be_bytes]. change (0 / 256) with 0. rewrite IH.
  change [big.byte_of_Z 0] with (repeat x00 1).
  rewrite <- repeat_app. f_equal. lia.
Qed.

Lemma be_bytes_app (m k : nat) (x : Z) :
  big.be_bytes (m + k) x
  = big.be_bytes m (x / 256 ^ Z.of_nat k) ++ big.be_bytes k x.
Proof.
  revert x. induction k as [|k IH]; intros x.
  - rewrite Nat.add_0_r. cbn [big.be_bytes Z.of_nat].
    rewrite Z.pow_0_r, Z.div_1_r, app_nil_r. reflexivity.
  - rewrite Nat.add_succ_r. cbn [big.be_bytes].
    rewrite IH, app_assoc. do 3 f_equal.
    rewrite Nat2Z.inj_succ, Z.pow_succ_r by lia.
    rewrite Z.div_div by lia. reflexivity.
Qed.

(** Padding the minimal bytes of [x] with zero bytes on the left gives the
    bytes of [x] at the fixed width. *)
Lemma pad_Bytes (n : nat) (x : Z) :
  0 <= x ->
  len (big.Bytes x) <= Z.of_nat n ->
  repeat x00 (n - List.length (big.Bytes x)) ++ big.Bytes x = big.be_bytes n x.
Proof.
  intros Hx Hlen.
  set (k := List.length (big.Bytes x)).
  assert (Z.of_nat k <= Z.of_nat n) as Hk by exact Hlen.
  replace n with ((n - k) + k)%nat at 2 by lia.
  rewrite be_bytes_app.
  assert (x < 256 ^ Z.of_nat k) as Hlt.
  { pose proof (SetBytes_range (big.Bytes x)) as Hr.
    rewrite SetBytes_Bytes, Z.abs_eq in Hr by assumption. apply Hr. }
  rewrite Z.div_small by lia. rewrite be_bytes_zero. f_equal.
  unfold big.Bytes. rewrite Z.abs_eq by assumption.
  subst k. unfold big.Bytes. rewrite length_be_bytes. reflexivity.
Qed.

(** Reading a buffer and writing the number back at the buffer's width gives
    the buffer. *)
Lemma be_bytes_SetBytes (buf : list byte) :
  big.be_bytes (List.length buf) (big.SetBytes buf) = buf.
Proof.
  induction buf as [|b buf IH] using rev_ind; [reflexivity|].
  rewrite length_app, Nat.add_comm. cbn [List.length Nat.add big.be_bytes].
  rewrite SetBytes_app.
  change (len [b]) with 1. rewrite Z.pow_1_r.
  change (big.SetBytes [b]) with (0 * 256 + big.Z_of_byte b).
  rewrite Z.mul_0_l, Z.add_0_l.
  pose proof (Z_of_byte_range b) as Hb.
  rewrite Z.div_add_l by lia. rewrite Z.div_small by lia.
  rewrite Z.add_0_r, IH. f_equal.
  rewrite <- byte_of_Z_mod.
  rewrite Z.add_comm, Z.mod_add by lia.
  rewrite byte_of_Z_mod, byte_of_Z_of_byte. reflexivity.
Qed.

Lemma SetBytes_inj (buf1 buf2 : list byte) :
  List.length buf1 = List.length buf2 ->
  big.SetBytes buf1 = big.SetBytes buf2 ->
  buf1 = buf2.
Proof.
  intros Hlen Hval.
  rewrite <- (be_bytes_SetBytes buf1), <- (be_bytes_SetBytes buf2).
  rewrite Hlen, Hval. reflexivity.
Qed.

(** The zero padding of [rawEncode], on a number read from a buffer of the
    target length, restores the buffer. *)
Lemma pad_SetBytes (n : Z) (buf : list byte) :
  len buf = n ->
  repeat x00 (Z.to_nat (n - len (big.Bytes (big.SetBytes buf))))
    ++ big.Bytes (big.SetBytes buf)
  = buf.
Proof.
  intros Hn. pose proof (len_Bytes_SetBytes buf) as Hle.
  pose proof (SetBytes_range buf) as [H0 _].
  rewrite <- (be_bytes_SetBytes buf) at 3.
  rewrite <- pad_Bytes by (assumption || exact Hle).
  f_equal. f_equal. unfold len in *. lia.
Qed.

(* ================================================================= *)
(** ** The two padded copies of [rawEncode] and [signHash] *)

Lemma copy_from_prefix {A : Type} (pre win src : list A) :
  (List.length src <= List.length win)%nat ->
  slice.copy_from (pre ++ win) (len pre) src
  = Ret (pre ++ src ++ skipn (List.length src) win).
Proof.
  intros Hw. unfold slice.copy_from.
  rewrite slice_from_ok by (rewrite len_app; pose proof (len_nonneg win);
                            pose proof (len_nonneg pre); lia).
  cbn [bind]. unfold len. rewrite Nat2Z.id.
  rewrite skipn_app, skipn_all, Nat.sub_diag. cbn [skipn app].
  rewrite firstn_app, firstn_all, Nat.sub_diag. cbn [firstn].
  rewrite app_nil_r, Nat.min_r by assumption.
  rewrite firstn_all. reflexivity.
Qed.

(** A buffer of [2 n] zero bytes into which [a] is copied so as to end at
    offset [n] and [b] so as to end at offset [2 n]: each half is its number
    padded on the left. *)
Lemma pad_pair (n : Z) (a b : list byte) :
  len a <= n -> len b <= n ->
  (buf <- slice.make (2 * n) ;;
   buf <- slice.copy_from buf (n - len a) a ;;
   buf <- slice.copy_from buf (2 * n - len b) b ;;
   Ret buf)
  = Ret ((repeat x00 (Z.to_nat (n - len a)) ++ a)
           ++ (repeat x00 (Z.to_nat (n - len b)) ++ b)).
Proof.
  intros Ha Hb.
  pose proof (len_nonneg a) as Ha0. pose proof (len_nonneg b) as Hb0.
  rewrite make_ok by lia. cbn [bind].
  replace (Z.to_nat (2 * n))
    with (Z.to_nat (n - len a) + (List.length a + Z.to_nat n))%nat
    by (unfold len in *; lia).
  rewrite (repeat_app x00 (Z.to_nat (n - len a))).
  replace (n - len a) with (len (repeat x00 (Z.to_nat (n - len a)))) at 2
    by (rewrite len_repeat; lia).
  rewrite copy_from_prefix by (rewrite repeat_length; lia).
  cbn [bind].
  rewrite repeat_app, skipn_app, repeat_length, Nat.sub_diag.
  rewrite skipn_all2 by (rewrite repeat_length; lia).
  cbn [skipn app].
  replace (Z.to_nat n)
    with (Z.to_nat (n - len b) + List.length b)%nat at 1
    by (unfold len in *; lia).
  rewrite (repeat_app x00 (Z.to_nat (n - len b))).
  rewrite !app_assoc.
  replace (2 * n - len b)
    with (len ((repeat x00 (Z.to_nat (n - len a)) ++ a)
                 ++ repeat x00 (Z.to_nat (n - len b)))).
  2:{ rewrite !len_app, !len_repeat. lia. }
  rewrite copy_from_exact by apply repeat_length.
  cbn [bind]. reflexivity.
Qed.

(* ================================================================= *)
(** ** Raw encodings: contents and round trips *)

(** [PrKeyECDSA.Encode] writes the absolute value of the scalar as [Nlen]
    big-endian bytes when it fits, and panics on the out-of-range slice
    index when the scalar needs more than [Nlen] bytes. *)
Theorem Encode_private_fits_or_panics (sk : PrKeyECDSA) :
  params_fit (curve (sk_alg sk)) ->
  len (big.Bytes (goecdsa.D (goPrKey sk))) < 2 ^ 62 ->
  (len (big.Bytes (goecdsa.D (goPrKey sk))) <= Nlen (sk_alg sk) ->
   PrKeyECDSA.Encode sk
   = Ret (big.be_bytes (Z.to_nat (Nlen (sk_alg sk)))
                       (Z.abs (goecdsa.D (goPrKey sk)))))
  /\ (Nlen (sk_alg sk) < len (big.Bytes (goecdsa.D (goPrKey sk))) ->
      PrKeyECDSA.Encode sk = Panic "slice bounds out of range").
Proof.
  intros Hfit Hmem. destruct (Nlen_eq _ Hfit) as [_ Hr].
  set (d := goecdsa.D (goPrKey sk)) in *.
  pose proof (len_nonneg (big.Bytes d)) as H0.
  split; intros Hlen.
  - unfold PrKeyECDSA.Encode. rewrite rawEncode_private by assumption.
    fold d. f_equal.
    assert (big.Bytes d = big.Bytes (Z.abs d)) as Habs.
    { unfold big.Bytes, big.BitLen. rewrite !Z.abs_idemp. reflexivity. }
    rewrite Habs. rewrite <- pad_Bytes.
    + f_equal. f_equal. unfold len. lia.
    + apply Z.abs_nonneg.
    + rewrite <- Habs. lia.
  - unfold PrKeyECDSA.Encode, PrKeyECDSA.rawEncode. fold d.
    rewrite make_ok by lia. cbn [bind].
    unfold int.sub. rewrite int_wrap_small by lia.
    unfold slice.copy_from, slice.from.
    destruct (Z.ltb_spec (Nlen (sk_alg sk) - len (big.Bytes d)) 0);
      [reflexivity | lia].
Qed.

Lemma Encode_private_fits_or_panics_witness :
  params_fit (curve (sk_alg scalarOneKey))
  /\ PrKeyECDSA.Encode scalarOneKey = Ret (repeat x00 31 ++ [x01])
  /\ PrKeyECDSA.Encode
       {| sk_alg := newECDSAP256;
          goPrKey := {| goecdsa.Public := goPubKey basePointKey;
                        goecdsa.D := 2 ^ 256 |} |}
     = Panic "slice bounds out of range".
Proof.
  pose proof (ok_fit _ newECDSAP256_ok) as Hfit.
  split; [exact Hfit|]. split.
  - destruct (Encode_private_fits_or_panics scalarOneKey Hfit) as [Hok _].
    + vm_compute. reflexivity.
    + rewrite Hok; [|vm_compute; discriminate]. vm_compute. reflexivity.
  - apply (Encode_private_fits_or_panics
             {| sk_alg := newECDSAP256;
                goPrKey := {| goecdsa.Public := goPubKey basePointKey;
                              goecdsa.D := 2 ^ 256 |} |} Hfit).
    + vm_compute. reflexivity.
    + vm_compute. reflexivity.
Defined.

(** The encoding of the key read from a buffer of [Nlen] bytes is the
    buffer. *)
Lemma rawEncode_of_decoded (a : ecdsaAlgo) (der : list byte)
      (pub : goecdsa.PublicKey) :
  params_fit (curve a) ->
  len der = Nlen a ->
  PrKeyECDSA.rawEncode
    {| sk_alg := a;
       goPrKey := {| goecdsa.Public := pub; goecdsa.D := big.SetBytes der |} |}
  = Ret der.
Proof.
  intros Hfit Hlen. rewrite rawEncode_private.
  - cbn [sk_alg goPrKey goecdsa.D]. rewrite pad_SetBytes by assumption.
    reflexivity.
  - exact Hfit.
  - cbn [sk_alg goPrKey goecdsa.D]. rewrite <- Hlen.
    apply len_Bytes_SetBytes.
Qed.

(** With a non-negative scalar that fits, the encoding is the scalar at the
    width of [Nlen] bytes. *)
Lemma Encode_private_nonneg (sk : PrKeyECDSA) :
  params_fit (curve (sk_alg sk)) ->
  0 <= goecdsa.D (goPrKey sk) ->
  len (big.Bytes (goecdsa.D (goPrKey sk))) <= Nlen (sk_alg sk) ->
  PrKeyECDSA.Encode sk
  = Ret (big.be_bytes (Z.to_nat (Nlen (sk_alg sk))) (goecdsa.D (goPrKey sk))).
Proof.
  intros Hfit Hd Hlen. destruct (Nlen_eq _ Hfit) as [_ Hr].
  unfold PrKeyECDSA.Encode. rewrite rawEncode_private by assumption.
  f_equal. rewrite <- pad_Bytes by (assumption || lia).
  do 2 f_equal. unfold len. lia.
Qed.

(** Decoding a private key and encoding the result gives the input back:
    every buffer of [Nlen] bytes is the raw encoding of the key it decodes
    to. *)
Theorem Encode_decoded_private_key (a : ecdsaAlgo) (der : list byte) :
  params_fit (curve a) ->
  len der = Nlen a ->
  exists sk : PrKeyECDSA,
    decodePrivateKey a der = Ret (Some (PrivateECDSA sk), None)
    /\ PrKeyECDSA.Encode sk = Ret der.
Proof.
  intros Hfit Hlen. eexists. split.
  - unfold decodePrivateKey. apply rawDecodePrivateKey_ok, Hlen.
  - unfold PrKeyECDSA.Encode. apply rawEncode_of_decoded; assumption.
Qed.

Lemma Encode_decoded_private_key_witness :
  params_fit (curve newECDSASecp256k1)
  /\ len (repeat x00 31 ++ [x07]) = Nlen newECDSASecp256k1
  /\ exists sk : PrKeyECDSA,
       decodePrivateKey newECDSASecp256k1 (repeat x00 31 ++ [x07])
       = Ret (Some (PrivateECDSA sk), None)
       /\ PrKeyECDSA.Encode sk = Ret (repeat x00 31 ++ [x07]).
Proof.
  pose proof (ok_fit _ newECDSASecp256k1_ok) as Hfit.
  assert (len (repeat x00 31 ++ [x07]) = Nlen newECDSASecp256k1) as Hlen
    by (vm_compute; reflexivity).
  split; [exact Hfit|]. split; [exact Hlen|].
  exact (Encode_decoded_private_key newECDSASecp256k1 _ Hfit Hlen).
Defined.

Lemma rawEncode_public_eq (pk : PubKeyECDSA) :
  params_fit (curve (pk_alg pk)) ->
  let xBytes := big.Bytes (goecdsa.X (goPubKey pk)) in
  let yBytes := big.Bytes (goecdsa.Y (goPubKey pk)) in
  let Plen := Plen (pk_alg pk) in
  len xBytes <= Plen ->
  len yBytes <= Plen ->
  PubKeyECDSA.rawEncode pk
  = Ret ((repeat x00 (Z.to_nat (Plen - len xBytes)) ++ xBytes)
           ++ (repeat x00 (Z.to_nat (Plen - len yBytes)) ++ yBytes)).
Proof.
  intros Hfit xBytes yBytes P Hx Hy.
  destruct (Plen_eq _ Hfit) as [_ Hr]. fold P in Hr.
  pose proof (len_nonneg xBytes). pose proof (len_nonneg yBytes).
  unfold PubKeyECDSA.rawEncode. fold xBytes yBytes P.
  unfold int.sub, int.mul. rewrite !int_wrap_small by lia.
  apply pad_pair; assumption.
Qed.

(** Decoding a public key and encoding the result gives the input back. *)
Theorem Encode_decoded_public_key (a : ecdsaAlgo) (der : list byte) :
  params_fit (curve a) ->
  len der = 2 * Plen a ->
  exists pk : PubKeyECDSA,
    decodePublicKey a der = Ret (Some (PublicECDSA pk), None)
    /\ PubKeyECDSA.Encode pk = Ret der.
Proof.
  intros Hfit Hlen. destruct (Plen_eq a Hfit) as [_ Hr].
  assert (Z.of_nat (List.length der) = 2 * Plen a) as Hlen' by exact Hlen.
  assert (len (firstn (Z.to_nat (Plen a)) der) = Plen a) as Hf
    by (unfold len; rewrite length_firstn; lia).
  assert (len (skipn (Z.to_nat (Plen a)) der) = Plen a) as Hs
    by (unfold len; rewrite length_skipn; lia).
  eexists. split.
  - unfold decodePublicKey. apply rawDecodePublicKey_ok; assumption.
  - unfold PubKeyECDSA.Encode. rewrite rawEncode_public_eq.
    + cbn [pk_alg goPubKey goecdsa.X goecdsa.Y].
      rewrite !pad_SetBytes by assumption.
      rewrite firstn_skipn. reflexivity.
    + exact Hfit.
    + cbn [pk_alg goPubKey goecdsa.X]. rewrite <- Hf at 2.
      apply len_Bytes_SetBytes.
    + cbn [pk_alg goPubKey goecdsa.Y]. rewrite <- Hs at 2.
      apply len_Bytes_SetBytes.
Qed.

Lemma Encode_decoded_public_key_witness :
  params_fit (curve newECDSAP256)
  /\ len (repeat x00 63 ++ [x2a]) = 2 * Plen newECDSAP256
  /\ exists pk : PubKeyECDSA,
       decodePublicKey newECDSAP256 (repeat x00 63 ++ [x2a])
       = Ret (Some (PublicECDSA pk), None)
       /\ PubKeyECDSA.Encode pk = Ret (repeat x00 63 ++ [x2a]).
Proof.
  pose proof (ok_fit _ newECDSAP256_ok) as Hfit.
  assert (len (repeat x00 63 ++ [x2a]) = 2 * Plen newECDSAP256) as Hlen
    by (vm_compute; reflexivity).
  split; [exact Hfit|]. split; [exact Hlen|].
  exact (Encode_decoded_public_key newECDSAP256 _ Hfit Hlen).
Defined.

(** The shape of a constructed public key: it carries the algorithm and its
    curve, and coordinates that are non-negative and fit in [Plen] bytes. *)
Lemma constructed_public_shape (a : ecdsaAlgo) (pk : PubKeyECDSA) :
  curve_ok (curve a) ->
  constructed_public a pk ->
  exists x y : Z,
    pk = {| pk_alg := a;
            goPubKey := {| goecdsa.Curve := curve a;
                           goecdsa.X := x; goecdsa.Y := y |} |}
    /\ 0 <= x /\ 0 <= y
    /\ len (big.Bytes x) <= Plen a /\ len (big.Bytes y) <= Plen a.
Proof.
  intros Hok Hc.
  destruct (constructed_public_inv a pk Hok Hc) as [Halg [Hcurve [Hx Hy]]].
  exists (goecdsa.X (goPubKey pk)), (goecdsa.Y (goPubKey pk)).
  split.
  { destruct pk as [alg [c x y]]. cbn in *. subst. reflexivity. }
  split; [|split; [|split; assumption]].
  - destruct Hc as [der pk Hdec | sk Hsk].
    + destruct (decodePublicKey_inv a der pk (ok_fit _ Hok) Hdec) as [_ ->].
      apply SetBytes_range.
    + apply (constructed_private_inv a sk Hok Hsk).
  - destruct Hc as [der pk Hdec | sk Hsk].
    + destruct (decodePublicKey_inv a der pk (ok_fit _ Hok) Hdec) as [_ ->].
      apply SetBytes_range.
    + apply (constructed_private_inv a sk Hok Hsk).
Qed.

(** Encoding a constructed public key and decoding the bytes gives the very
    same key (algorithm, curve and both coordinates), which in particular
    [Equals] the original. *)
Theorem decodePublicKey_Encode (a : ecdsaAlgo) (pk : PubKeyECDSA) :
  curve_ok (curve a) ->
  constructed_public a pk ->
  exists out : list byte,
    PubKeyECDSA.Encode pk = Ret out
    /\ decodePublicKey a out = Ret (Some (PublicECDSA pk), None)
    /\ PubKeyECDSA.Equals pk (PublicECDSA pk) = true.
Proof.
  intros Hok Hc. pose proof (ok_fit _ Hok) as Hfit.
  destruct (Plen_eq a Hfit) as [_ Hr].
  destruct (constructed_public_shape a pk Hok Hc)
    as [x [y [-> [Hx0 [Hy0 [Hx Hy]]]]]].
  pose proof (len_nonneg (big.Bytes x)). pose proof (len_nonneg (big.Bytes y)).
  eexists. split; [|split].
  - unfold PubKeyECDSA.Encode. apply rawEncode_public_eq; assumption.
  - cbn [pk_alg goPubKey goecdsa.X goecdsa.Y].
    unfold decodePublicKey. rewrite rawDecodePublicKey_ok.
    + rewrite firstn_app, skipn_app, length_app, repeat_length.
      replace (Z.to_nat (Plen a)
               - (Z.to_nat (Plen a - len (big.Bytes x))
                  + List.length (big.Bytes x)))%nat
        with 0%nat by (unfold len in *; lia).
      cbn [firstn skipn]. rewrite app_nil_r.
      rewrite firstn_all2, skipn_all2
        by (rewrite length_app, repeat_length; unfold len in *; lia).
      cbn [app].
      rewrite !SetBytes_zeros, !SetBytes_Bytes, !Z.abs_eq by assumption.
      reflexivity.
    + exact Hfit.
    + rewrite !len_app, !len_repeat. lia.
  - unfold PubKeyECDSA.Equals. rewrite same_refl, !Cmp_refl. reflexivity.
Qed.

Lemma decodePublicKey_Encode_witness :
  curve_ok (curve newECDSAP256)
  /\ constructed_public newECDSAP256 basePointKey
  /\ exists out : list byte,
       PubKeyECDSA.Encode basePointKey = Ret out
       /\ decodePublicKey newECDSAP256 out
          = Ret (Some (PublicECDSA basePointKey), None)
       /\ PubKeyECDSA.Equals basePointKey (PublicECDSA basePointKey) = true.
Proof.
  pose proof newECDSAP256_ok as Hok.
  assert (constructed_public newECDSAP256 basePointKey) as Hc.
  { apply (decoded_public _
             (big.Bytes (elliptic.Gx elliptic.p256Params)
                ++ big.Bytes (elliptic.Gy elliptic.p256Params))).
    unfold decodePublicKey. rewrite rawDecodePublicKey_ok.
    - unfold basePointKey. do 5 f_equal; vm_compute; reflexivity.
    - apply Hok.
    - vm_compute. reflexivity. }
  split; [exact Hok|]. split; [exact Hc|].
  exact (decodePublicKey_Encode newECDSAP256 basePointKey Hok Hc).
Defined.

(* ================================================================= *)
(** ** Equality of keys *)

Lemma Cmp_eq_iff (x y : Z) : (big.Cmp x y =? 0) = true <-> x = y.
Proof.
  unfold big.Cmp. destruct (Z.compare_spec x y); cbn; split; intros; lia.
Qed.

Lemma same_iff (c1 c2 : elliptic.Curve) :
  elliptic.same c1 c2 = true <-> elliptic.addr c1 = elliptic.addr c2.
Proof. unfold elliptic.same. apply Pos.eqb_eq. Qed.

Lemma Equals_private_iff (sk sk' : PrKeyECDSA) :
  PrKeyECDSA.Equals sk (PrivateECDSA sk') = true
  <-> elliptic.addr (curve (sk_alg sk)) = elliptic.addr (curve (sk_alg sk'))
      /\ goecdsa.D (goPrKey sk) = goecdsa.D (goPrKey sk').
Proof.
  unfold PrKeyECDSA.Equals. rewrite <- same_iff, <- Cmp_eq_iff.
  destruct (elliptic.same _ _); cbn [negb]; intuition congruence.
Qed.

Lemma Equals_public_iff (pk pk' : PubKeyECDSA) :
  PubKeyECDSA.Equals pk (PublicECDSA pk') = true
  <-> elliptic.addr (curve (pk_alg pk)) = elliptic.addr (curve (pk_alg pk'))
      /\ goecdsa.X (goPubKey pk) = goecdsa.X (goPubKey pk')
      /\ goecdsa.Y (goPubKey pk) = goecdsa.Y (goPubKey pk').
Proof.
  unfold PubKeyECDSA.Equals. rewrite <- same_iff, <- !Cmp_eq_iff.
  destruct (elliptic.same _ _); cbn [negb].
  - rewrite andb_true_iff. intuition congruence.
  - intuition congruence.
Qed.

(** [Equals] is an equivalence relation on the ECDSA private keys and on the
    ECDSA public keys: reflexive, symmetric and transitive. *)
Theorem Equals_equivalence :
  (forall sk, PrKeyECDSA.Equals sk (PrivateECDSA sk) = true)
  /\ (forall sk1 sk2,
         PrKeyECDSA.Equals sk1 (PrivateECDSA sk2)
         = PrKeyECDSA.Equals sk2 (PrivateECDSA sk1))
  /\ (forall sk1 sk2 sk3,
         PrKeyECDSA.Equals sk1 (PrivateECDSA sk2) = true ->
         PrKeyECDSA.Equals sk2 (PrivateECDSA sk3) = true ->
         PrKeyECDSA.Equals sk1 (PrivateECDSA sk3) = true)
  /\ (forall pk, PubKeyECDSA.Equals pk (PublicECDSA pk) = true)
  /\ (forall pk1 pk2,
         PubKeyECDSA.Equals pk1 (PublicECDSA pk2)
         = PubKeyECDSA.Equals pk2 (PublicECDSA pk1))
  /\ (forall pk1 pk2 pk3,
         PubKeyECDSA.Equals pk1 (PublicECDSA pk2) = true ->
         PubKeyECDSA.Equals pk2 (PublicECDSA pk3) = true ->
         PubKeyECDSA.Equals pk1 (PublicECDSA pk3) = true).
Proof.
  repeat split.
  - intros sk. apply Equals_private_iff. split; reflexivity.
  - intros sk1 sk2. apply eq_true_iff_eq.
    rewrite !Equals_private_iff. intuition congruence.
  - intros sk1 sk2 sk3. rewrite !Equals_private_iff. intuition congruence.
  - intros pk. apply Equals_public_iff. repeat split.
  - intros pk1 pk2. apply eq_true_iff_eq.
    rewrite !Equals_public_iff. intuition congruence.
  - intros pk1 pk2 pk3. rewrite !Equals_public_iff. intuition congruence.
Qed.

(** Keys of the two algorithms are never equal: a P-256 key and a secp256k1
    key compare unequal in both directions, whatever their scalars or
    coordinates; and a key of another implementation never equals an ECDSA
    key. *)
Theorem Equals_rejects_other_curve (sk sk' : PrKeyECDSA) (pk pk' : PubKeyECDSA) :
  sk_alg sk = newECDSAP256 ->
  sk_alg sk' = newECDSASecp256k1 ->
  pk_alg pk = newECDSAP256 ->
  pk_alg pk' = newECDSASecp256k1 ->
  PrKeyECDSA.Equals sk (PrivateECDSA sk') = false
  /\ PrKeyECDSA.Equals sk' (PrivateECDSA sk) = false
  /\ PubKeyECDSA.Equals pk (PublicECDSA pk') = false
  /\ PubKeyECDSA.Equals pk' (PublicECDSA pk) = false
  /\ PrKeyECDSA.Equals sk PrivateOther = false
  /\ PubKeyECDSA.Equals pk PublicOther = false.
Proof.
  intros H1 H2 H3 H4.
  unfold PrKeyECDSA.Equals, PubKeyECDSA.Equals.
  rewrite H1, H2, H3, H4. repeat split.
Qed.

Lemma Equals_rejects_other_curve_witness :
  PrKeyECDSA.Equals scalarOneKey
    (PrivateECDSA {| sk_alg := newECDSASecp256k1;
                     goPrKey := goPrKey scalarOneKey |}) = false
  /\ PubKeyECDSA.Equals basePointKey
       (PublicECDSA {| pk_alg := newECDSASecp256k1;
                       goPubKey := goPubKey basePointKey |}) = false.
Proof.
  destruct (Equals_rejects_other_curve
              scalarOneKey
              {| sk_alg := newECDSASecp256k1; goPrKey := goPrKey scalarOneKey |}
              basePointKey
              {| pk_alg := newECDSASecp256k1; goPubKey := goPubKey basePointKey |}
              eq_refl eq_refl eq_refl eq_refl) as [Hsk [_ [Hpk _]]].
  split; [exact Hsk | exact Hpk].
Defined.

(** Decoding is injective: two buffers that decode to private keys which
    [Equals] holds for are the same buffer, and likewise for public keys. *)
Theorem decode_injective (a : ecdsaAlgo) (der1 der2 : list byte) :
  params_fit (curve a) ->
  (forall sk1 sk2 : PrKeyECDSA,
      decodePrivateKey a der1 = Ret (Some (PrivateECDSA sk1), None) ->
      decodePrivateKey a der2 = Ret (Some (PrivateECDSA sk2), None) ->
      (PrKeyECDSA.Equals sk1 (PrivateECDSA sk2) = true <-> der1 = der2))
  /\ (forall pk1 pk2 : PubKeyECDSA,
         decodePublicKey a der1 = Ret (Some (PublicECDSA pk1), None) ->
         decodePublicKey a der2 = Ret (Some (PublicECDSA pk2), None) ->
         (PubKeyECDSA.Equals pk1 (PublicECDSA pk2) = true <-> der1 = der2)).
Proof.
  intros Hfit. split.
  - intros sk1 sk2 H1 H2.
    destruct (decodePrivateKey_inv a der1 sk1 H1) as [Hl1 ->].
    destruct (decodePrivateKey_inv a der2 sk2 H2) as [Hl2 ->].
    rewrite Equals_private_iff. cbn [sk_alg goPrKey goecdsa.D].
    split.
    + intros [_ Hd]. apply SetBytes_inj; [|exact Hd].
      unfold len in *. lia.
    + intros ->. split; reflexivity.
  - intros pk1 pk2 H1 H2.
    destruct (Plen_eq a Hfit) as [_ Hr].
    destruct (decodePublicKey_inv a der1 pk1 Hfit H1) as [Hl1 ->].
    destruct (decodePublicKey_inv a der2 pk2 Hfit H2) as [Hl2 ->].
    rewrite Equals_public_iff. cbn [pk_alg goPubKey goecdsa.X goecdsa.Y].
    split.
    + intros [_ [Hx Hy]].
      assert (Z.of_nat (List.length der1) = 2 * Plen a) as Hl1' by exact Hl1.
      assert (Z.of_nat (List.length der2) = 2 * Plen a) as Hl2' by exact Hl2.
      apply SetBytes_inj in Hx; [|rewrite !length_firstn; lia].
      apply SetBytes_inj in Hy; [|rewrite !length_skipn; lia].
      rewrite <- (firstn_skipn (Z.to_nat (Plen a)) der1).
      rewrite <- (firstn_skipn (Z.to_nat (Plen a)) der2).
      rewrite Hx, Hy. reflexivity.
    + intros ->. repeat split.
Qed.

Lemma decode_injective_witness :
  params_fit (curve newECDSAP256)
  /\ forall sk1 sk2 : PrKeyECDSA,
       decodePrivateKey newECDSAP256 (repeat x00 31 ++ [x01])
       = Ret (Some (PrivateECDSA sk1), None) ->
       decodePrivateKey newECDSAP256 (repeat x00 31 ++ [x02])
       = Ret (Some (PrivateECDSA sk2), None) ->
       PrKeyECDSA.Equals sk1 (PrivateECDSA sk2) = false.
Proof.
  pose proof (ok_fit _ newECDSAP256_ok) as Hfit.
  split; [exact Hfit|].
  intros sk1 sk2 H1 H2.
  destruct (decode_injective newECDSAP256 (repeat x00 31 ++ [x01])
              (repeat x00 31 ++ [x02]) Hfit) as [Hpriv _].
  destruct (PrKeyECDSA.Equals sk1 (PrivateECDSA sk2)) eqn:E; [|reflexivity].
  apply (Hpriv sk1 sk2 H1 H2) in E. discriminate E.
Defined.

(* ================================================================= *)
(** ** More on key generation *)

(** Two seeds of sufficient length yield the same key exactly when their
    big-endian values are congruent modulo [n - 1]; in particular zero
    bytes in front of a seed do not change the key. *)
Theorem generatePrivateKey_seed_congruence
        (a : ecdsaAlgo) (seed1 seed2 : list byte) :
  curve_ok (curve a) ->
  Nlen a + 16 <= len seed1 ->
  Nlen a + 16 <= len seed2 ->
  let n := elliptic.N (elliptic.Params (curve a)) in
  (generatePrivateKey a seed1 = generatePrivateKey a seed2
   <-> big.SetBytes seed1 mod (n - 1) = big.SetBytes seed2 mod (n - 1))
  /\ generatePrivateKey a (x00 :: seed1) = generatePrivateKey a seed1.
Proof.
  intros Hok H1 H2 n.
  assert (forall s s', Nlen a + 16 <= len s -> Nlen a + 16 <= len s' ->
            (generatePrivateKey a s = generatePrivateKey a s'
             <-> big.SetBytes s mod (n - 1) = big.SetBytes s' mod (n - 1)))
    as Hiff.
  { intros s s' Hs Hs'.
    rewrite (generatePrivateKey_long a s Hok Hs).
    rewrite (generatePrivateKey_long a s' Hok Hs').
    split.
    - intros Heq. injection Heq as _ _ Hd. unfold seed_scalar in Hd.
      fold n in Hd. lia.
    - intros Hmod. unfold seed_scalar. fold n.
      rewrite Hmod. reflexivity. }
  split; [apply Hiff; assumption|].
  apply Hiff.
  - unfold len in *. cbn [List.length]. lia.
  - assumption.
  - change (x00 :: seed1) with (repeat x00 1 ++ seed1).
    rewrite SetBytes_zeros. reflexivity.
Qed.

Lemma generatePrivateKey_seed_congruence_witness :
  curve_ok (curve newECDSAP256)
  /\ zeroSeed
     <> repeat x00 16 ++ big.Bytes (elliptic.N elliptic.p256Params - 1)
  /\ generatePrivateKey newECDSAP256 zeroSeed
     = generatePrivateKey newECDSAP256
         (repeat x00 16 ++ big.Bytes (elliptic.N elliptic.p256Params - 1)).
Proof.
  split; [exact newECDSAP256_ok|].
  split; [vm_compute; discriminate|].
  assert (Nlen newECDSAP256 + 16 <= len zeroSeed) as H1
    by (vm_compute; discriminate).
  assert (Nlen newECDSAP256 + 16
          <= len (repeat x00 16
                    ++ big.Bytes (elliptic.N elliptic.p256Params - 1))) as H2
    by (vm_compute; discriminate).
  destruct (generatePrivateKey_seed_congruence newECDSAP256 zeroSeed
              (repeat x00 16 ++ big.Bytes (elliptic.N elliptic.p256Params - 1))
              newECDSAP256_ok H1 H2) as [[_ Hsame] _].
  apply Hsame. vm_compute. reflexivity.
Defined.

Lemma affineCurve_by_value
      (params : elliptic.CurveParams) (a : Z) (address : positive) :
  base_mult_by_value (elliptic.affineCurve params a address).
Proof.
  intros k k' Hk. cbn. unfold elliptic.affineScalarMult.
  rewrite Hk. reflexivity.
Qed.

(** When [ScalarBaseMult] depends on the value of the scalar only, as on
    both curves of the package, decoding the encoding of a generated key
    rebuilds the very same key, public point included. *)
Lemma decode_encode_generated_key_identical
        (a : ecdsaAlgo) (seed : list byte) :
  curve_ok (curve a) ->
  base_mult_by_value (curve a) ->
  Nlen a + 16 <= len seed ->
  exists (sk : PrKeyECDSA) (der : list byte),
    generatePrivateKey a seed = Ret (Some (PrivateECDSA sk), None)
    /\ PrKeyECDSA.Encode sk = Ret der
    /\ decodePrivateKey a der = Ret (Some (PrivateECDSA sk), None).
Proof.
  intros Hok Hval Hlen.
  pose proof (ok_fit _ Hok) as Hfit.
  pose proof (seed_scalar_range _ seed (ok_order _ Hok)) as Hd.
  set (d := seed_scalar _ seed) in Hd.
  assert (len (big.Bytes d) <= Nlen a) as Hb
    by (apply len_Bytes_below_order; [assumption | lia]).
  pose proof (len_nonneg (big.Bytes d)) as Hb0.
  do 2 eexists.
  split; [apply generatePrivateKey_long; assumption|].
  split.
  { unfold PrKeyECDSA.Encode. apply rawEncode_private; assumption. }
  cbn [sk_alg goPrKey goecdsa.D]. fold d.
  unfold decodePrivateKey. rewrite rawDecodePrivateKey_ok.
  - rewrite SetBytes_zeros, SetBytes_Bytes, Z.abs_eq by lia.
    rewrite (Hval _ (big.Bytes d)) by apply SetBytes_zeros.
    reflexivity.
  - rewrite len_app, len_repeat. lia.
Qed.


Lemma Equals_equivalence_witness :
  PrKeyECDSA.Equals scalarOneKey (PrivateECDSA scalarOneKey) = true
  /\ PubKeyECDSA.Equals basePointKey (PublicECDSA basePointKey) = true.
Proof.
  destruct Equals_equivalence as [Hsk [_ [_ [Hpk _]]]].
  split; [apply Hsk | apply Hpk].
Defined.

(* ================================================================= *)
(** ** Signatures *)

Lemma len_Bytes_below (a : ecdsaAlgo) (x : Z) :
  params_fit (curve a) ->
  0 <= x < elliptic.N (elliptic.Params (curve a)) ->
  len (big.Bytes x) <= Nlen a.
Proof.
  intros Hfit Hx. apply len_Bytes_below_order; [assumption | lia].
Qed.

Lemma signHash_ok {Reader : Type}
      (goecdsa_Sign : Reader -> goecdsa.PrivateKey -> list byte
                      -> (Z * Z + error) * Reader)
      (rand rand' : Reader) (sk : PrKeyECDSA) (h : hash.Hash) (r s : Z) :
  params_fit (curve (sk_alg sk)) ->
  goecdsa_Sign rand (goPrKey sk) h = (inl (r, s), rand') ->
  len (big.Bytes r) <= Nlen (sk_alg sk) ->
  len (big.Bytes s) <= Nlen (sk_alg sk) ->
  PrKeyECDSA.signHash goecdsa_Sign rand sk h
  = (Ret (Some ((repeat x00 (Z.to_nat (Nlen (sk_alg sk) - len (big.Bytes r)))
                   ++ big.Bytes r)
                  ++ (repeat x00 (Z.to_nat (Nlen (sk_alg sk) - len (big.Bytes s)))
                        ++ big.Bytes s)), None), rand').
Proof.
  intros Hfit Hsign Hr Hs. destruct (Nlen_eq _ Hfit) as [_ Hn].
  pose proof (len_nonneg (big.Bytes r)). pose proof (len_nonneg (big.Bytes s)).
  unfold PrKeyECDSA.signHash. rewrite Hsign.
  unfold int.sub, int.mul. rewrite !int_wrap_small by lia.
  f_equal.
  pose proof (pad_pair (Nlen (sk_alg sk)) (big.Bytes r) (big.Bytes s) Hr Hs)
    as Hpad.
  destruct (slice.make (2 * Nlen (sk_alg sk))) as [buf0|]; cbn [bind] in *;
    [|discriminate Hpad].
  destruct (slice.copy_from buf0 _ (big.Bytes r)) as [buf1|]; cbn [bind] in *;
    [|discriminate Hpad].
  destruct (slice.copy_from buf1 _ (big.Bytes s)) as [buf2|]; cbn [bind] in *;
    [|discriminate Hpad].
  injection Hpad as ->. reflexivity.
Qed.

(** The two halves of a signature built from [r] and [s], each padded to
    [n] bytes, read back as [r] and [s]. *)
Lemma padded_pair_halves (n : Z) (r s : Z) :
  0 <= r -> 0 <= s ->
  len (big.Bytes r) <= n -> len (big.Bytes s) <= n ->
  let sig := (repeat x00 (Z.to_nat (n - len (big.Bytes r))) ++ big.Bytes r)
               ++ (repeat x00 (Z.to_nat (n - len (big.Bytes s))) ++ big.Bytes s) in
  len sig = 2 * n
  /\ big.SetBytes (firstn (Z.to_nat n) sig) = r
  /\ big.SetBytes (skipn (Z.to_nat n) sig) = s.
Proof.
  intros Hr Hs Hlr Hls sig.
  pose proof (len_nonneg (big.Bytes r)). pose proof (len_nonneg (big.Bytes s)).
  assert (List.length (repeat x00 (Z.to_nat (n - len (big.Bytes r)))
                         ++ big.Bytes r) = Z.to_nat n) as Hl1
    by (rewrite length_app, repeat_length; unfold len in *; lia).
  split; [|split].
  - unfold sig. rewrite !len_app, !len_repeat. lia.
  - unfold sig. rewrite firstn_app, Hl1, Nat.sub_diag. cbn [firstn].
    rewrite app_nil_r, firstn_all2 by lia.
    rewrite SetBytes_zeros, SetBytes_Bytes, Z.abs_eq by assumption.
    reflexivity.
  - unfold sig. rewrite skipn_app, Hl1, Nat.sub_diag. cbn [skipn].
    rewrite skipn_all2 by lia. cbn [app].
    rewrite SetBytes_zeros, SetBytes_Bytes, Z.abs_eq by assumption.
    reflexivity.
Qed.

(** When crypto/ecdsa returns a pair [(r, s)] of numbers below the order,
    [Sign] returns a signature of exactly [2 * Nlen] bytes, the [Nlen]-byte
    big-endian form of [r] followed by that of [s]; both numbers are read
    back from the two halves; and the state of the random source is the one
    crypto/ecdsa left. *)
Theorem Sign_signature_format
        (Reader : Type)
        (goecdsa_Sign : Reader -> goecdsa.PrivateKey -> list byte
                        -> (Z * Z + error) * Reader)
        (rand rand' : Reader) (sk : PrKeyECDSA) (data : list byte)
        (alg : hash.Hasher) (r s : Z) :
  params_fit (curve (sk_alg sk)) ->
  goecdsa_Sign rand (goPrKey sk) (hash.ComputeHash alg data)
  = (inl (r, s), rand') ->
  0 <= r < elliptic.N (elliptic.Params (curve (sk_alg sk))) ->
  0 <= s < elliptic.N (elliptic.Params (curve (sk_alg sk))) ->
  let n := Z.to_nat (Nlen (sk_alg sk)) in
  exists sig : Signature,
    PrKeyECDSA.Sign goecdsa_Sign rand sk data (Some alg)
    = (Ret (Some sig, None), rand')
    /\ sig = big.be_bytes n r ++ big.be_bytes n s
    /\ len sig = 2 * Nlen (sk_alg sk)
    /\ big.SetBytes (firstn n sig) = r
    /\ big.SetBytes (skipn n sig) = s.
Proof.
  intros Hfit Hsign Hr Hs n. destruct (Nlen_eq _ Hfit) as [_ Hn].
  pose proof (len_Bytes_below _ r Hfit Hr) as Hlr.
  pose proof (len_Bytes_below _ s Hfit Hs) as Hls.
  destruct (padded_pair_halves (Nlen (sk_alg sk)) r s) as [Hlen [Hfst Hsnd]];
    try (assumption || lia).
  eexists. split.
  { unfold PrKeyECDSA.Sign. apply signHash_ok; eassumption. }
  split; [|split; [exact Hlen | split; [exact Hfst | exact Hsnd]]].
  f_equal.
  - rewrite <- pad_Bytes by (lia || (unfold n; lia)).
    do 2 f_equal. unfold n, len. lia.
  - rewrite <- pad_Bytes by (lia || (unfold n; lia)).
    do 2 f_equal. unfold n, len. lia.
Qed.

Lemma Sign_signature_format_witness :
  params_fit (curve (sk_alg scalarOneKey))
  /\ exists sig : Signature,
       PrKeyECDSA.Sign nonceOneSign 0%nat scalarOneKey [x2a] (Some prefixHasher)
       = (Ret (Some sig, None), 1%nat)
       /\ len sig = 64
       /\ big.SetBytes (firstn 32 sig)
          = elliptic.Gx elliptic.p256Params mod elliptic.N elliptic.p256Params.
Proof.
  pose proof (ok_fit _ newECDSAP256_ok) as Hfit.
  split; [exact Hfit|].
  set (r := elliptic.Gx elliptic.p256Params mod elliptic.N elliptic.p256Params).
  set (s := (big.SetBytes (hash.ComputeHash prefixHasher [x2a]) + 1 * r)
            mod elliptic.N elliptic.p256Params).
  destruct (Sign_signature_format nat nonceOneSign 0%nat 1%nat scalarOneKey
              [x2a] prefixHasher r s Hfit)
    as [sig [Hsig [_ [Hlen [Hr _]]]]].
  - vm_compute. reflexivity.
  - vm_compute. split; [discriminate | reflexivity].
  - vm_compute. split; [discriminate | reflexivity].
  - exists sig. split; [exact Hsig|]. split; [exact Hlen | exact Hr].
Defined.

(** [Verify], given the signature that [Sign] returned for the same data
    and hasher and the public key of the signing key, passes to crypto/ecdsa
    exactly the digest and the pair [(r, s)] that crypto/ecdsa produced when
    signing, and returns its verdict with a nil error: the raw encoding in
    between loses nothing. *)
Theorem Verify_of_Sign
        (Reader : Type)
        (goecdsa_Sign : Reader -> goecdsa.PrivateKey -> list byte
                        -> (Z * Z + error) * Reader)
        (rand rand' : Reader) (sk : PrKeyECDSA) (data : list byte)
        (alg : hash.Hasher) (r s : Z) :
  params_fit (curve (sk_alg sk)) ->
  goecdsa_Sign rand (goPrKey sk) (hash.ComputeHash alg data)
  = (inl (r, s), rand') ->
  0 <= r < elliptic.N (elliptic.Params (curve (sk_alg sk))) ->
  0 <= s < elliptic.N (elliptic.Params (curve (sk_alg sk))) ->
  exists sig : Signature,
    PrKeyECDSA.Sign goecdsa_Sign rand sk data (Some alg)
    = (Ret (Some sig, None), rand')
    /\ PubKeyECDSA.Verify (PrKeyECDSA.PublicKey sk) sig data (Some alg)
       = (b <- goecdsa.Verify (goecdsa.Public (goPrKey sk))
                 (hash.ComputeHash alg data) r s ;;
          Ret (b, None)).
Proof.
  intros Hfit Hsign Hr Hs. destruct (Nlen_eq _ Hfit) as [_ Hn].
  pose proof (len_Bytes_below _ r Hfit Hr) as Hlr.
  pose proof (len_Bytes_below _ s Hfit Hs) as Hls.
  destruct (padded_pair_halves (Nlen (sk_alg sk)) r s) as [Hlen [Hfst Hsnd]];
    try (assumption || lia).
  eexists. split.
  { unfold PrKeyECDSA.Sign. apply signHash_ok; eassumption. }
  unfold PubKeyECDSA.Verify.
  rewrite verifyHash_split.
  - cbn [PrKeyECDSA.PublicKey pk_alg goPubKey].
    rewrite Hfst, Hsnd. reflexivity.
  - exact Hfit.
  - cbn [PrKeyECDSA.PublicKey pk_alg]. lia.
Qed.

Lemma Verify_of_Sign_witness :
  params_fit (curve (sk_alg scalarOneKey))
  /\ exists sig : Signature,
       PrKeyECDSA.Sign nonceOneSign 0%nat scalarOneKey [x2a] (Some prefixHasher)
       = (Ret (Some sig, None), 1%nat)
       /\ PubKeyECDSA.Verify (PrKeyECDSA.PublicKey scalarOneKey) sig [x2a]
                             (Some prefixHasher)
          = (b <- goecdsa.Verify (goPubKey basePointKey)
                    (hash.ComputeHash prefixHasher [x2a])
                    (elliptic.Gx elliptic.p256Params
                     mod elliptic.N elliptic.p256Params)
                    ((big.SetBytes (hash.ComputeHash prefixHasher [x2a])
                      + 1 * (elliptic.Gx elliptic.p256Params
                             mod elliptic.N elliptic.p256Params))
                     mod elliptic.N elliptic.p256Params) ;;
             Ret (b, None)).
Proof.
  pose proof (ok_fit _ newECDSAP256_ok) as Hfit.
  split; [exact Hfit|].
  apply (Verify_of_Sign nat nonceOneSign 0%nat 1%nat scalarOneKey
           [x2a] prefixHasher _ _ Hfit).
  - vm_compute. reflexivity.
  - vm_compute. split; [discriminate | reflexivity].
  - vm_compute. split; [discriminate | reflexivity].
Defined.

(** Whenever one of the functions that return a value with an error comes
    back, exactly one of the two is nil: a key or signature without error,
    or an error without key or signature. *)
Theorem result_xor_error
        (Reader : Type)
        (goecdsa_Sign : Reader -> goecdsa.PrivateKey -> list byte
                        -> (Z * Z + error) * Reader)
        (a : ecdsaAlgo) (buf : list byte) :
  (forall v e, generatePrivateKey a buf = Ret (v, e) ->
               (v = None /\ e <> None) \/ (v <> None /\ e = None))
  /\ (forall v e, decodePrivateKey a buf = Ret (v, e) ->
                  (v = None /\ e <> None) \/ (v <> None /\ e = None))
  /\ (forall v e, decodePublicKey a buf = Ret (v, e) ->
                  (v = None /\ e <> None) \/ (v <> None /\ e = None))
  /\ (forall rand sk alg v e rand',
         PrKeyECDSA.Sign goecdsa_Sign rand sk buf alg = (Ret (v, e), rand') ->
         (v = None /\ e <> None) \/ (v <> None /\ e = None)).
Proof.
  repeat split.
  - intros v e. unfold generatePrivateKey.
    destruct (len buf <? _).
    + intros [= <- <-]. left. split; [reflexivity | discriminate].
    + destruct (goecdsaGenerateKey _ _); cbn [bind]; [|discriminate].
      intros [= <- <-]. right. split; [discriminate | reflexivity].
  - intros v e. unfold decodePrivateKey, rawDecodePrivateKey.
    destruct (negb _).
    + intros [= <- <-]. left. split; [reflexivity | discriminate].
    + destruct (elliptic.ScalarBaseMult _ _).
      intros [= <- <-]. right. split; [discriminate | reflexivity].
  - intros v e. unfold decodePublicKey, rawDecodePublicKey.
    destruct (negb _).
    + intros [= <- <-]. left. split; [reflexivity | discriminate].
    + destruct (slice.to _ _); cbn [bind]; [|discriminate].
      destruct (slice.from _ _); cbn [bind]; [|discriminate].
      intros [= <- <-]. right. split; [discriminate | reflexivity].
  - intros rand sk alg v e rand'. unfold PrKeyECDSA.Sign, PrKeyECDSA.signHash.
    destruct alg as [alg|].
    + destruct (goecdsa_Sign _ _ _) as [[[r s]|err] rnd].
      * destruct (slice.make _); cbn [bind]; [|discriminate].
        destruct (slice.copy_from _ _ _); cbn [bind]; [|discriminate].
        destruct (slice.copy_from _ _ _); cbn [bind]; [|discriminate].
        intros [= <- <- _]. right. split; [discriminate | reflexivity].
      * intros [= <- <- _]. left. split; [reflexivity | discriminate].
    + intros [= <- <- _]. left. split; [reflexivity | discriminate].
Qed.

Lemma result_xor_error_witness :
  generatePrivateKey newECDSAP256 [] <> Ret (None, None)
  /\ PrKeyECDSA.Sign failingSign 0%nat scalarOneKey [] (Some prefixHasher)
     = (Ret (None, Some "ECDSA Sign has failed: unexpected EOF"%string), 0%nat).
Proof.
  destruct (result_xor_error nat failingSign newECDSAP256 [])
    as [Hgen [_ [_ Hsign]]].
  split.
  - intros H. destruct (Hgen _ _ H) as [[_ He]|[Hv _]]; congruence.
  - reflexivity.
Defined.

(** Every constructed private key of the algorithm [a] is rebuilt, public
    point included, by decoding its encoding, when [ScalarBaseMult] depends
    on the value of the scalar only (as on both curves of the package). *)
Theorem decodePrivateKey_Encode (a : ecdsaAlgo) (sk : PrKeyECDSA) :
  curve_ok (curve a) ->
  base_mult_by_value (curve a) ->
  constructed_private a sk ->
  exists der : list byte,
    PrKeyECDSA.Encode sk = Ret der
    /\ len der = Nlen a
    /\ decodePrivateKey a der = Ret (Some (PrivateECDSA sk), None).
Proof.
  intros Hok Hval Hc. pose proof (ok_fit _ Hok) as Hfit.
  destruct (Nlen_eq a Hfit) as [_ Hn].
  destruct Hc as [seed sk Hgen | der0 sk Hdec].
  - destruct (Z.lt_ge_cases (len seed) (Nlen a + 16)) as [Hlt|Hge].
    { rewrite generatePrivateKey_short in Hgen by assumption.
      discriminate Hgen. }
    destruct (decode_encode_generated_key_identical a seed Hok Hval Hge)
      as [sk0 [der [Hgen0 [Henc Hdec]]]].
    rewrite Hgen in Hgen0. injection Hgen0 as <-.
    exists der. split; [exact Henc|]. split; [|exact Hdec].
    destruct (decodePrivateKey_inv a der sk Hdec) as [Hlen _]. exact Hlen.
  - destruct (decodePrivateKey_inv a der0 sk Hdec) as [Hlen Hsk].
    exists der0. split; [|split; [exact Hlen | exact Hdec]].
    rewrite Hsk. unfold PrKeyECDSA.Encode.
    apply rawEncode_of_decoded; assumption.
Qed.

Lemma decodePrivateKey_Encode_witness :
  curve_ok (curve newECDSAP256)
  /\ base_mult_by_value (curve newECDSAP256)
  /\ exists sk : PrKeyECDSA,
       constructed_private newECDSAP256 sk
       /\ exists der : list byte,
            PrKeyECDSA.Encode sk = Ret der
            /\ len der = Nlen newECDSAP256
            /\ decodePrivateKey newECDSAP256 der
               = Ret (Some (PrivateECDSA sk), None).
Proof.
  split; [exact newECDSAP256_ok|].
  split; [apply affineCurve_by_value|].
  pose proof (generatePrivateKey_long newECDSAP256 zeroSeed newECDSAP256_ok)
    as Hgen.
  cbv zeta in Hgen.
  match type of Hgen with
  | _ -> _ = Ret (Some (PrivateECDSA ?k), None) => set (sk := k) in Hgen
  end.
  assert (constructed_private newECDSAP256 sk) as Hc.
  { apply (generated _ zeroSeed). apply Hgen. vm_compute. discriminate. }
  exists sk. split; [exact Hc|].
  exact (decodePrivateKey_Encode newECDSAP256 sk newECDSAP256_ok
           (affineCurve_by_value _ _ _) Hc).
Defined.

(** Every scalar of [[1, n-1]] is generated by some seed of valid length:
    the big-endian bytes of [d - 1], padded with zero bytes on the left to
    [Nlen + 16] bytes. *)
Theorem generatePrivateKey_reaches_every_scalar (a : ecdsaAlgo) (d : Z) :
  curve_ok (curve a) ->
  1 <= d <= elliptic.N (elliptic.Params (curve a)) - 1 ->
  exists (seed : list byte) (sk : PrKeyECDSA),
    len seed = Nlen a + 16
    /\ generatePrivateKey a seed = Ret (Some (PrivateECDSA sk), None)
    /\ goecdsa.D (goPrKey sk) = d.
Proof.
  intros Hok Hd. pose proof (ok_fit _ Hok) as Hfit.
  destruct (Nlen_eq a Hfit) as [_ Hn].
  assert (len (big.Bytes (d - 1)) <= Nlen a) as Hb
    by (apply len_Bytes_below_order; [assumption | lia]).
  pose proof (len_nonneg (big.Bytes (d - 1))) as Hb0.
  set (seed := repeat x00 (Z.to_nat (Nlen a + 16 - len (big.Bytes (d - 1))))
                 ++ big.Bytes (d - 1)).
  assert (len seed = Nlen a + 16) as Hlen
    by (unfold seed; rewrite len_app, len_repeat; lia).
  exists seed. eexists. split; [exact Hlen|].
  split; [apply generatePrivateKey_long; [assumption | lia]|].
  cbn [goPrKey goecdsa.D]. unfold seed_scalar, seed.
  rewrite SetBytes_zeros, SetBytes_Bytes, Z.abs_eq by lia.
  rewrite Z.mod_small by lia. lia.
Qed.

Lemma generatePrivateKey_reaches_every_scalar_witness :
  curve_ok (curve newECDSAP256)
  /\ exists (seed : list byte) (sk : PrKeyECDSA),
       len seed = Nlen newECDSAP256 + 16
       /\ generatePrivateKey newECDSAP256 seed
          = Ret (Some (PrivateECDSA sk), None)
       /\ goecdsa.D (goPrKey sk) = elliptic.N elliptic.p256Params - 1.
Proof.
  split; [exact newECDSAP256_ok|].
  apply (generatePrivateKey_reaches_every_scalar newECDSAP256
           (elliptic.N elliptic.p256Params - 1) newECDSAP256_ok).
  vm_compute. split; discriminate.
Defined.

(** [decodePrivateKey] returns an error, "raw private key is not valid",
    exactly when the buffer is not [Nlen] bytes long (one byte less or more
    included), and never panics. *)
Lemma decodePrivateKey_length_rejection (a : ecdsaAlgo) (der : list byte) :
  ((exists e, decodePrivateKey a der = Ret (None, Some e))
   <-> len der <> Nlen a)
  /\ (len der <> Nlen a ->
      decodePrivateKey a der
      = Ret (None, Some (errors.New "raw private key is not valid")))
  /\ (len der = Nlen a - 1 \/ len der = Nlen a + 1 ->
      exists e, decodePrivateKey a der = Ret (None, Some e))
  /\ (exists r, decodePrivateKey a der = Ret r).
Proof.
  unfold decodePrivateKey.
  destruct (Z.eq_dec (len der) (Nlen a)) as [Heq|Hne].
  - rewrite rawDecodePrivateKey_ok by assumption.
    split; [split|split; [|split]].
    + intros [e He]. discriminate He.
    + intros Hne. contradiction.
    + intros Hne. contradiction.
    + intros [H|H]; lia.
    + eexists. reflexivity.
  - rewrite rawDecodePrivateKey_bad_length by assumption.
    split; [split|split; [|split]].
    + intros _. exact Hne.
    + intros _. eexists. reflexivity.
    + intros _. reflexivity.
    + intros _. eexists. reflexivity.
    + eexists. reflexivity.
Qed.

Lemma decodePrivateKey_length_rejection_witness :
  decodePrivateKey newECDSAP256 (repeat x01 31)
     = Ret (None, Some (errors.New "raw private key is not valid"))
  /\ decodePrivateKey newECDSAP256 (repeat x01 33)
     = Ret (None, Some (errors.New "raw private key is not valid")).
Proof.
  split.
  - apply (decodePrivateKey_length_rejection newECDSAP256 (repeat x01 31)).
    vm_compute. discriminate.
  - apply (decodePrivateKey_length_rejection newECDSAP256 (repeat x01 33)).
    vm_compute. discriminate.
Defined.

(* ================================================================= *)
(** ** The hex string of a key *)

Lemma hex_byte_inv (c : byte) :
  big.byte_of_Z
    (16 * fmt.undigit (fmt.digit (Z.shiftr (big.Z_of_byte c) 4))
     + fmt.undigit (fmt.digit (Z.land (big.Z_of_byte c) 15)))
  = c.
Proof. destruct c; vm_compute; reflexivity. Qed.

Lemma hex_inj (b1 b2 : list byte) : fmt.hex b1 = fmt.hex b2 -> b1 = b2.
Proof.
  revert b2. induction b1 as [|c1 b1 IH]; intros [|c2 b2] H;
    cbn [fmt.hex] in H; try discriminate H; [reflexivity|].
  injection H as Hhi Hlo Hrest.
  f_equal; [|apply IH, Hrest].
  rewrite <- (hex_byte_inv c1), <- (hex_byte_inv c2), Hhi, Hlo.
  reflexivity.
Qed.

Lemma length_hex (b : list byte) :
  String.length (fmt.hex b) = (2 * List.length b)%nat.
Proof.
  induction b as [|c b IH]; [reflexivity|].
  cbn [fmt.hex String.length List.length]. rewrite IH. lia.
Qed.

Lemma prefix_0x_inj (s t : string) :
  ("0x" ++ s)%string = ("0x" ++ t)%string -> s = t.
Proof. cbn [String.append]. intros H. injection H as H. exact H. Qed.

Lemma Sprintf_sharp_x_inj (b1 b2 : list byte) :
  fmt.Sprintf_sharp_x b1 = fmt.Sprintf_sharp_x b2 -> b1 = b2.
Proof.
  destruct b1 as [|c1 b1], b2 as [|c2 b2];
    cbn [fmt.Sprintf_sharp_x]; intros H;
    try discriminate H; [reflexivity|].
  apply hex_inj, prefix_0x_inj, H.
Qed.

Lemma constructed_private_nonneg (a : ecdsaAlgo) (sk : PrKeyECDSA) :
  curve_ok (curve a) ->
  constructed_private a sk ->
  0 <= goecdsa.D (goPrKey sk).
Proof.
  intros Hok Hc. destruct Hc as [seed sk Hgen | der sk Hdec].
  - rewrite (generatePrivateKey_inv a seed sk Hok Hgen).
    cbn [goPrKey goecdsa.D].
    pose proof (seed_scalar_range _ seed (ok_order _ Hok)). lia.
  - destruct (decodePrivateKey_inv a der sk Hdec) as [_ ->].
    cbn [goPrKey goecdsa.D]. apply SetBytes_range.
Qed.

Lemma Nlen_positive (a : ecdsaAlgo) : curve_ok (curve a) -> 1 <= Nlen a.
Proof.
  intros Hok. destruct (Nlen_eq a (ok_fit _ Hok)) as [-> _].
  pose proof (ok_order _ Hok) as Hn.
  pose proof (BitLen_mono 1 (elliptic.N (elliptic.Params (curve a)))
                ltac:(lia)) as Hb.
  change (big.BitLen 1) with 1 in Hb.
  apply Z.div_le_lower_bound; lia.
Qed.

(** [String] of a constructed private key is [0x] followed by [2 * Nlen]
    lowercase hexadecimal digits, those of the raw encoding; two constructed
    private keys of one algorithm have the same string exactly when
    [Equals] holds for them. *)
Theorem String_private_key (a : ecdsaAlgo) (sk1 sk2 : PrKeyECDSA) :
  curve_ok (curve a) ->
  constructed_private a sk1 ->
  constructed_private a sk2 ->
  exists (s1 s2 : string) (der1 : list byte),
    PrKeyECDSA_String sk1 = Ret s1
    /\ PrKeyECDSA_String sk2 = Ret s2
    /\ PrKeyECDSA.Encode sk1 = Ret der1
    /\ s1 = ("0x" ++ fmt.hex der1)%string
    /\ Z.of_nat (String.length s1) = 2 + 2 * Nlen a
    /\ (s1 = s2 <-> PrKeyECDSA.Equals sk1 (PrivateECDSA sk2) = true).
Proof.
  intros Hok H1 H2. pose proof (ok_fit _ Hok) as Hfit.
  destruct (Nlen_eq a Hfit) as [_ Hn].
  pose proof (Nlen_positive a Hok) as Hpos.
  destruct (constructed_private_inv a sk1 Hok H1) as [Ha1 [Hl1 _]].
  destruct (constructed_private_inv a sk2 Hok H2) as [Ha2 [Hl2 _]].
  pose proof (constructed_private_nonneg a sk1 Hok H1) as Hd1.
  pose proof (constructed_private_nonneg a sk2 Hok H2) as Hd2.
  assert (forall sk, sk_alg sk = a -> 0 <= goecdsa.D (goPrKey sk) ->
            len (big.Bytes (goecdsa.D (goPrKey sk))) <= Nlen a ->
            PrKeyECDSA.Encode sk
            = Ret (big.be_bytes (Z.to_nat (Nlen a)) (goecdsa.D (goPrKey sk))))
    as Henc.
  { intros sk Ha Hd Hl. rewrite <- Ha.
    apply Encode_private_nonneg; rewrite ?Ha; assumption. }
  assert (forall d, fmt.Sprintf_sharp_x (big.be_bytes (Z.to_nat (Nlen a)) d)
                    = ("0x" ++ fmt.hex (big.be_bytes (Z.to_nat (Nlen a)) d))%string)
    as Hfmt.
  { intros d. destruct (Z.to_nat (Nlen a)) as [|n] eqn:En; [lia|].
    cbn [big.be_bytes]. destruct (big.be_bytes n (d / 256)); reflexivity. }
  unfold PrKeyECDSA_String.
  rewrite (Henc sk1 Ha1 Hd1 Hl1), (Henc sk2 Ha2 Hd2 Hl2). cbn [bind].
  do 3 eexists. repeat split; try reflexivity.
  - apply Hfmt.
  - rewrite Hfmt. cbn [String.append String.length].
    rewrite length_hex, length_be_bytes. lia.
  - intros Heq. apply Sprintf_sharp_x_inj in Heq.
    apply Equals_private_iff. rewrite Ha1, Ha2. split; [reflexivity|].
    apply (f_equal big.SetBytes) in Heq. rewrite !SetBytes_be_bytes in Heq.
    assert (forall d, 0 <= d -> len (big.Bytes d) <= Nlen a ->
              d mod 256 ^ Z.of_nat (Z.to_nat (Nlen a)) = d) as Hsmall.
    { intros d Hd Hl. apply Z.mod_small. split; [assumption|].
      pose proof (SetBytes_range (big.Bytes d)) as Hb.
      rewrite SetBytes_Bytes, Z.abs_eq in Hb by assumption.
      eapply Z.lt_le_trans; [apply Hb|].
      apply Z.pow_le_mono_r; lia. }
    rewrite !Hsmall in Heq by assumption. exact Heq.
  - intros Heq. apply Equals_private_iff in Heq. destruct Heq as [_ ->].
    reflexivity.
Qed.

Lemma String_private_key_witness :
  curve_ok (curve newECDSAP256)
  /\ exists sk : PrKeyECDSA,
       constructed_private newECDSAP256 sk
       /\ PrKeyECDSA_String sk
          = Ret "0x0000000000000000000000000000000000000000000000000000000000000001"%string.
Proof.
  split; [exact newECDSAP256_ok|].
  pose proof (generatePrivateKey_long newECDSAP256 zeroSeed newECDSAP256_ok)
    as Hgen.
  cbv zeta in Hgen.
  match type of Hgen with
  | _ -> _ = Ret (Some (PrivateECDSA ?k), None) => set (sk := k) in Hgen
  end.
  assert (constructed_private newECDSAP256 sk) as Hc.
  { apply (generated _ zeroSeed). apply Hgen. vm_compute. discriminate. }
  exists sk. split; [exact Hc|].
  destruct (String_private_key newECDSAP256 sk sk newECDSAP256_ok Hc Hc)
    as [s1 [s2 [der [Hs1 [_ [Henc [Hs _]]]]]]].
  rewrite Hs1, Hs. f_equal. f_equal.
  assert (PrKeyECDSA.Encode sk = Ret (repeat x00 31 ++ [x01])) as Henc'.
  { unfold PrKeyECDSA.Encode. rewrite rawEncode_private.
    - cbn [goPrKey goecdsa.D sk_alg sk]. vm_compute. reflexivity.
    - apply newECDSAP256_ok.
    - cbn [goPrKey goecdsa.D sk_alg sk]. vm_compute. discriminate. }
  rewrite Henc in Henc'. injection Henc' as ->.
  vm_compute. reflexivity.
Defined.

(* ================================================================= *)
(** ** Transaction templates *)

Section TemplateFacts.
Variable Value : Type.
Variable NewUInt8 : byte -> Value.
Variable NewInt : Z -> Value.
Variable NewArray : list (option Value) -> Value.
Variable MustEncode : Value -> outcome (list byte).
Variable Address : Type.
Variable AccountKey : Type.
Variable AccountKey_Encode : AccountKey -> list byte.
Variable Transaction : Type.
Variable NewTransaction : Transaction.
Variable SetScript : Transaction -> list byte -> Transaction.
Variable AddAuthorizer : Transaction -> Address -> Transaction.
Variable AddRawArgument : Transaction -> list byte -> Transaction.

Lemma make_values_ok {X : Type} (xs : list X) :
  templates.make_values Value (len xs) = Ret (repeat None (List.length xs)).
Proof.
  unfold templates.make_values, len.
  destruct (Z.ltb_spec (Z.of_nat (List.length xs)) 0); [lia|].
  rewrite Nat2Z.id. reflexivity.
Qed.

Lemma assign_middle (done pending : list (option Value)) (slot : option Value)
      (v : Value) :
  templates.assign Value (done ++ slot :: pending) (len done) v
  = Ret (done ++ Some v :: pending).
Proof.
  unfold templates.assign.
  pose proof (len_nonneg done).
  destruct (Z.ltb_spec (len done) 0); [lia|].
  rewrite len_app.
  destruct (Z.leb_spec (len done + len (slot :: pending)) (len done)) as [Hle|_].
  { unfold len in Hle. cbn [List.length] in Hle. lia. }
  cbn [orb]. unfold len. rewrite Nat2Z.id.
  rewrite firstn_app, firstn_all, Nat.sub_diag. cbn [firstn].
  rewrite app_nil_r.
  replace (Z.to_nat (Z.of_nat (List.length done) + 1))
    with (List.length done + 1)%nat by lia.
  rewrite skipn_app.
  rewrite skipn_all2 by lia.
  replace (List.length done + 1 - List.length done)%nat with 1%nat by lia.
  reflexivity.
Qed.

(** The loop fills the slots in order: after it, the slice holds the images
    of the elements. *)
Lemma range_assign_map {X : Type} (f : X -> outcome Value) (g : X -> Value)
      (xs : list X) (done pending : list (option Value)) :
  (forall x, f x = Ret (g x)) ->
  List.length pending = List.length xs ->
  templates.range_assign Value f (len done) xs (done ++ pending)
  = Ret (done ++ map (fun x => Some (g x)) xs).
Proof.
  intros Hf. revert done pending.
  induction xs as [|x xs IH]; intros done pending Hlen.
  - destruct pending; [|discriminate Hlen]. reflexivity.
  - destruct pending as [|slot pending]; [discriminate Hlen|].
    cbn [templates.range_assign]. rewrite Hf. cbn [bind].
    rewrite assign_middle. cbn [bind].
    replace (len done + 1) with (len (done ++ [Some (g x)]))
      by (rewrite len_app; reflexivity).
    change (done ++ Some (g x) :: pending)
      with (done ++ [Some (g x)] ++ pending).
    rewrite app_assoc, IH by (cbn in Hlen; lia).
    rewrite <- app_assoc. reflexivity.
Qed.

Lemma range_assign_fresh {X : Type} (f : X -> outcome Value) (g : X -> Value)
      (xs : list X) :
  (forall x, f x = Ret (g x)) ->
  templates.range_assign Value f 0 xs (repeat None (List.length xs))
  = Ret (map (fun x => Some (g x)) xs).
Proof.
  intros Hf.
  apply (range_assign_map f g xs [] (repeat None (List.length xs)) Hf).
  apply repeat_length.
Qed.

(** The value that [bytesToCadenceArray] returns. *)
Lemma bytesToCadenceArray_eq (b : list byte) :
  templates.bytesToCadenceArray Value NewUInt8 NewArray b
  = Ret (NewArray (map (fun v => Some (NewUInt8 v)) b)).
Proof.
  unfold templates.bytesToCadenceArray.
  rewrite make_values_ok. cbn [bind].
  rewrite (range_assign_fresh _ NewUInt8) by reflexivity.
  reflexivity.
Qed.

(** [bytesToCadenceArray] never panics and returns the cadence array of the
    [UInt8] values of the bytes, in order: as many elements as bytes, none
    of them nil. *)
Theorem bytesToCadenceArray_map (b : list byte) :
  templates.bytesToCadenceArray Value NewUInt8 NewArray b
  = Ret (NewArray (map (fun v => Some (NewUInt8 v)) b)).
Proof.
  unfold templates.bytesToCadenceArray.
  rewrite make_values_ok. cbn [bind].
  rewrite (range_assign_fresh _ NewUInt8) by reflexivity.
  reflexivity.
Qed.

(** [CreateAccount] authorizes the payer and passes two arguments, in this
    order: the encoding of the array that holds, for each account key in
    order, the byte array of its encoding, and the encoding of the byte
    array of the code.  [CreateAccountWithoutCode] builds the same
    transaction as [CreateAccount] with no code, except for its script. *)
Theorem CreateAccount_arguments
        (accountKeys : list AccountKey) (code : list byte) (payer : Address) :
  let bytesArray :=
    fun b : list byte => NewArray (map (fun v => Some (NewUInt8 v)) b) in
  let keysArray :=
    NewArray (map (fun k => Some (bytesArray (AccountKey_Encode k))) accountKeys) in
  let build := fun (script : string) (code : list byte) =>
    arg1 <- MustEncode keysArray ;;
    arg2 <- MustEncode (bytesArray code) ;;
    Ret (AddRawArgument
           (AddRawArgument
              (AddAuthorizer
                 (SetScript NewTransaction (list_byte_of_string script)) payer)
              arg1)
           arg2) in
  templates.CreateAccount Value NewUInt8 NewArray MustEncode Address
    AccountKey AccountKey_Encode Transaction NewTransaction SetScript
    AddAuthorizer AddRawArgument accountKeys code payer
  = build templates.createAccountTemplate code
  /\ templates.CreateAccountWithoutCode Value NewUInt8 NewArray MustEncode
       Address AccountKey AccountKey_Encode Transaction NewTransaction
       SetScript AddAuthorizer AddRawArgument accountKeys payer
     = build templates.createAccountWithoutCodeTemplate []
  /\ templates.createAccountTemplate
     <> templates.createAccountWithoutCodeTemplate.
Proof.
  intros bytesArray keysArray build.
  assert (forall k, templates.bytesToCadenceArray Value NewUInt8 NewArray
                      (AccountKey_Encode k)
                    = Ret (bytesArray (AccountKey_Encode k))) as Hkey
    by (intros k; apply bytesToCadenceArray_eq).
  split; [|split].
  - unfold templates.CreateAccount.
    rewrite make_values_ok. cbn [bind].
    rewrite (range_assign_fresh _ _ accountKeys Hkey).
    cbn [bind]. rewrite bytesToCadenceArray_eq. reflexivity.
  - unfold templates.CreateAccountWithoutCode.
    rewrite make_values_ok. cbn [bind].
    rewrite (range_assign_fresh _ _ accountKeys Hkey).
    cbn [bind]. rewrite bytesToCadenceArray_eq. reflexivity.
  - intros H. apply (f_equal String.length) in H. vm_compute in H.
    discriminate H.
Qed.

(** [ReplaceAccountKeys] passes two arguments, in this order: the encoding
    of the array of the byte arrays of the new keys, and the encoding of the
    array of the key ids as cadence integers, each in the order given; the
    account is added as authorizer.  [AddAccountKey] and
    [UpdateAccountCode] pass the single byte array of the key's encoding,
    resp. of the code.  None of the loops panics. *)
Theorem ReplaceAccountKeys_arguments
        (address : Address) (ids : list Z) (accountKeys : list AccountKey)
        (accountKey : AccountKey) (code : list byte) :
  let bytesArray :=
    fun b : list byte => NewArray (map (fun v => Some (NewUInt8 v)) b) in
  let script := fun s : string => SetScript NewTransaction (list_byte_of_string s) in
  templates.ReplaceAccountKeys Value NewUInt8 NewInt NewArray MustEncode
    Address AccountKey AccountKey_Encode Transaction NewTransaction SetScript
    AddAuthorizer AddRawArgument address ids accountKeys
  = (arg1 <- MustEncode
               (NewArray (map (fun k => Some (bytesArray (AccountKey_Encode k)))
                              accountKeys)) ;;
     arg2 <- MustEncode (NewArray (map (fun id => Some (NewInt id)) ids)) ;;
     Ret (AddAuthorizer
            (AddRawArgument
               (AddRawArgument (script templates.replaceAccountKeysTemplate) arg1)
               arg2)
            address))
  /\ templates.AddAccountKey Value NewUInt8 NewArray MustEncode Address
       AccountKey AccountKey_Encode Transaction NewTransaction SetScript
       AddAuthorizer AddRawArgument address accountKey
     = (arg <- MustEncode (bytesArray (AccountKey_Encode accountKey)) ;;
        Ret (AddAuthorizer
               (AddRawArgument (script templates.addAccountKeyTemplate) arg)
               address))
  /\ templates.UpdateAccountCode Value NewUInt8 NewArray MustEncode Address
       Transaction NewTransaction SetScript AddAuthorizer AddRawArgument
       address code
     = (arg <- MustEncode (bytesArray code) ;;
        Ret (AddAuthorizer
               (AddRawArgument (script templates.updateAccountCodeTemplate) arg)
               address)).
Proof.
  intros bytesArray script.
  assert (forall k, templates.bytesToCadenceArray Value NewUInt8 NewArray
                      (AccountKey_Encode k)
                    = Ret (bytesArray (AccountKey_Encode k))) as Hkey
    by (intros k; apply bytesToCadenceArray_eq).
  split; [|split].
  - unfold templates.ReplaceAccountKeys.
    rewrite !make_values_ok. cbn [bind].
    rewrite (range_assign_fresh _ _ accountKeys Hkey). cbn [bind].
    rewrite (range_assign_fresh _ NewInt ids) by reflexivity.
    reflexivity.
  - unfold templates.AddAccountKey. rewrite Hkey. reflexivity.
  - unfold templates.UpdateAccountCode. rewrite bytesToCadenceArray_eq.
    reflexivity.
Qed.
End TemplateFacts.
